(** * VOLK kernel [volk_32f_s32f_power_32f]: elementwise real power

    A shallow embedding of [kernels/volk/volk_32f_s32f_power_32f.h] and the
    properties of its three variants (aligned SSE4.1, aligned SSE, generic).

    - a [float] is the 32-bit pattern of an IEEE-754 binary32 value, a
      machine word; its arithmetic goes through the Standard Library's
      [SpecFloat] at precision 24 and maximal exponent 128;
    - an [__m128] is four lanes of [float]; the SSE intrinsics the kernel
      uses are written out lane by lane;
    - [unsigned int] is a 32-bit machine word with its wrap-around;
    - memory is a map from element addresses to [float], and every load,
      store and call of a power routine is recorded in a trace; a vector
      access at a misaligned address faults;
    - [powf] (libm) and the lane function of [powf4] (simdmath) are
      parameters: neither is code of the kernel. *)

From Stdlib Require Import ZArith List Lia Bool.
From Stdlib Require Import Floats.SpecFloat.
From coqutil Require Import Word.Interface Word.Properties Word.Naive.
Import ListNotations.
Local Open Scope Z_scope.

(** ** Machine words *)

Definition u32 : Type := Naive.word32.

#[local] Existing Instance Naive.word32_ok.

Definition u32_lit (z : Z) : u32 := word.of_Z z.

(** ** IEEE-754 binary32 on bit patterns *)

Module Binary32.

Definition prec : Z := 24.
Definition emax : Z := 128.

(** Bit 31 is the sign, bits 30..23 the biased exponent, bits 22..0 the
    fraction. *)
Definition sign_of (x : Z) : bool := Z.testbit x 31.
Definition expo_of (x : Z) : Z := Z.land (Z.shiftr x 23) 255.
Definition frac_of (x : Z) : Z := Z.land x 8388607.

Definition decode_bits (x : Z) : spec_float :=
  let s := sign_of x in
  let e := expo_of x in
  let m := frac_of x in
  if e =? 0 then
    match m with
    | Zpos p => S754_finite s p (-149)
    | _ => S754_zero s
    end
  else if e =? 255 then
    if m =? 0 then S754_infinity s else S754_nan
  else
    match m + 8388608 with
    | Zpos p => S754_finite s p (e - 150)
    | _ => S754_nan
    end.

Definition sign_weight (s : bool) : Z := if s then 2147483648 else 0.

(** The default NaN of the SSE unit ("real indefinite"). *)
Definition indefinite : Z := 0xFFC00000.

Definition encode_bits (f : spec_float) : Z :=
  match f with
  | S754_zero s => sign_weight s
  | S754_infinity s => sign_weight s + 0x7F800000
  | S754_nan => indefinite
  | S754_finite s m e =>
      sign_weight s
      + (if Zpos m <? 8388608 then Zpos m else (e + 149) * 8388608 + Zpos m)
  end.

End Binary32.

Definition float : Type := u32.

Definition decode (x : float) : spec_float :=
  Binary32.decode_bits (word.unsigned x).

Definition encode (f : spec_float) : float :=
  word.of_Z (Binary32.encode_bits f).

Definition is_nan (x : float) : bool :=
  match decode x with S754_nan => true | _ => false end.

Definition is_inf (x : float) : bool :=
  match decode x with S754_infinity _ => true | _ => false end.

(** A signalling NaN becomes quiet by setting the top bit of its fraction. *)
Definition quiet (x : float) : float := word.or x (u32_lit 0x00400000).

(** A lane of an SSE arithmetic instruction under the default control word
    (round to nearest even, no flushing to zero): a NaN operand is passed
    on, made quiet (the first one when both are NaN), an invalid operation
    gives the indefinite NaN, and the rest is IEEE arithmetic. *)
Definition sse_arith (op : spec_float -> spec_float -> spec_float)
    (a b : float) : float :=
  if is_nan a then quiet a
  else if is_nan b then quiet b
  else encode (op (decode a) (decode b)).

Definition f_sub : float -> float -> float :=
  sse_arith (SFsub Binary32.prec Binary32.emax).

Definition f_mul : float -> float -> float :=
  sse_arith (SFmul Binary32.prec Binary32.emax).

(** Ordered less-than: false as soon as one side is a NaN. *)
Definition f_lt (a b : float) : bool := SFltb (decode a) (decode b).

(** [fabsf]: the sign bit cleared. *)
Definition f_abs (x : float) : float := word.and x (u32_lit 0x7FFFFFFF).

Definition F_ZERO : float := u32_lit 0.
Definition F_ONE : float := u32_lit 0x3F800000.
Definition F_NEG_ONE : float := u32_lit 0xBF800000.
Definition F_INF : float := u32_lit 0x7F800000.
Definition F_NEG_INF : float := u32_lit 0xFF800000.

(** ** Vectors of four lanes and the intrinsics of the kernel *)

Record __m128 : Type := mk_m128 {
  lane0 : float;
  lane1 : float;
  lane2 : float;
  lane3 : float
}.

Definition lanewise2 (f : float -> float -> float) (a b : __m128) : __m128 :=
  mk_m128 (f (lane0 a) (lane0 b)) (f (lane1 a) (lane1 b))
          (f (lane2 a) (lane2 b)) (f (lane3 a) (lane3 b)).

Definition lanewise3 (f : float -> float -> float -> float)
    (a b c : __m128) : __m128 :=
  mk_m128 (f (lane0 a) (lane0 b) (lane0 c)) (f (lane1 a) (lane1 b) (lane1 c))
          (f (lane2 a) (lane2 b) (lane2 c)) (f (lane3 a) (lane3 b) (lane3 c)).

(** Lane [i] of a vector, for [i] in 0..3. *)
Definition lane (i : Z) (v : __m128) : float :=
  if i =? 0 then lane0 v
  else if i =? 1 then lane1 v
  else if i =? 2 then lane2 v
  else lane3 v.

Definition ALL_ONES : u32 := u32_lit 0xFFFFFFFF.
Definition NO_BITS : u32 := u32_lit 0.

Definition _mm_set_ps1 (x : float) : __m128 := mk_m128 x x x x.
Definition _mm_setzero_ps : __m128 := _mm_set_ps1 F_ZERO.

(** [_mm_cmplt_ps]: a lane of all ones where [a < b], of zeros elsewhere. *)
Definition cmplt_lane (a b : float) : u32 :=
  if f_lt a b then ALL_ONES else NO_BITS.
Definition _mm_cmplt_ps : __m128 -> __m128 -> __m128 := lanewise2 cmplt_lane.

Definition _mm_sub_ps : __m128 -> __m128 -> __m128 := lanewise2 f_sub.
Definition _mm_mul_ps : __m128 -> __m128 -> __m128 := lanewise2 f_mul.

Definition _mm_and_ps : __m128 -> __m128 -> __m128 := lanewise2 word.and.
Definition _mm_or_ps : __m128 -> __m128 -> __m128 := lanewise2 word.or.
(** [_mm_andnot_ps a b] is [(~a) & b]. *)
Definition andnot_lane (a b : u32) : u32 := word.and (word.not a) b.
Definition _mm_andnot_ps : __m128 -> __m128 -> __m128 := lanewise2 andnot_lane.

(** [_mm_blendv_ps a b mask]: the lane of [b] where bit 31 of the mask lane
    is set, the lane of [a] elsewhere. *)
Definition blendv_lane (a b mask : u32) : u32 :=
  if Z.testbit (word.unsigned mask) 31 then b else a.
Definition _mm_blendv_ps : __m128 -> __m128 -> __m128 -> __m128 :=
  lanewise3 blendv_lane.

(** ** Memory, traces and outcomes *)

(** An address counts [float] elements from a 16-byte aligned origin, so
    that a vector access is aligned when the address is a multiple of 4. *)
Definition addr : Type := Z.

Inductive event : Type :=
| Load (p : addr)
| Store (p : addr)
| Call_powf (x y : float)
| Call_powf4 (x y : __m128).

Record machine : Type := mk_machine {
  mem : addr -> float;
  trace : list event
}.

Definition record (e : event) (m : machine) : machine :=
  mk_machine (mem m) (trace m ++ [e]).

Definition poke (p : addr) (v : float) (h : addr -> float) : addr -> float :=
  fun q => if q =? p then v else h q.

Definition load (p : addr) (m : machine) : float * machine :=
  (mem m p, record (Load p) m).

Definition store (p : addr) (v : float) (m : machine) : machine :=
  record (Store p) (mk_machine (poke p v (mem m)) (trace m)).

(** The result of running a piece of the kernel: it finishes, or an aligned
    vector access meets a misaligned address (a general-protection fault),
    or the model's loop counter runs out. *)
Inductive outcome (A : Type) : Type :=
| Done (a : A)
| Fault
| OutOfFuel.
Arguments Done {A} a.
Arguments Fault {A}.
Arguments OutOfFuel {A}.

Definition bind {A B : Type} (o : outcome A) (k : A -> outcome B) : outcome B :=
  match o with
  | Done a => k a
  | Fault => Fault
  | OutOfFuel => OutOfFuel
  end.

Notation "x <- e ;; k" := (bind e (fun x => k))
  (at level 61, e at next level, right associativity).

Definition aligned (p : addr) : bool := p mod 4 =? 0.

Definition _mm_load_ps (p : addr) (m : machine) : outcome (__m128 * machine) :=
  if aligned p then
    let '(x0, m) := load p m in
    let '(x1, m) := load (p + 1) m in
    let '(x2, m) := load (p + 2) m in
    let '(x3, m) := load (p + 3) m in
    Done (mk_m128 x0 x1 x2 x3, m)
  else Fault.

Definition _mm_store_ps (p : addr) (v : __m128) (m : machine) : outcome machine :=
  if aligned p then
    Done (store (p + 3) (lane3 v)
           (store (p + 2) (lane2 v)
             (store (p + 1) (lane1 v)
               (store p (lane0 v) m))))
  else Fault.

(** The local variables the loops of the kernel share. *)
Record frame : Type := mk_frame {
  number : u32;
  cPtr : addr;
  aPtr : addr;
  mach : machine
}.

Definition u32_incr (n : u32) : u32 := word.add n (u32_lit 1).

(** ** The kernel *)

Section Kernel.

(** libm's single-precision real power, [float powf(float, float)]. *)
Variable powf : float -> float -> float.

(** Modelled from the spec: simdmath's [powf4] is not part of the
    repository; it computes "[|input[i]| ^ exponent] ... across the whole
    batch", that is lane by lane, and its lane function is a parameter. *)
Variable powf4_lane : float -> float -> float.

Definition powf4 : __m128 -> __m128 -> __m128 := lanewise2 powf4_lane.

Definition call_powf (x y : float) (m : machine) : float * machine :=
  (powf x y, record (Call_powf x y) m).

Definition call_powf4 (x y : __m128) (m : machine) : __m128 * machine :=
  (powf4 x y, record (Call_powf4 x y) m).

(** One round of the scalar loop: the element at [aPtr] is read, raised to
    [power] by [powf] and written at [cPtr]; both pointers and [number]
    advance by one. *)
Definition scalar_step (power : float) (f : frame) : frame :=
  let '(x, m) := load (aPtr f) (mach f) in
  let '(y, m) := call_powf x power m in
  let m := store (cPtr f) y m in
  mk_frame (u32_incr (number f)) (cPtr f + 1) (aPtr f + 1) m.

(** [for (; number < num_points; number++) { ... }] *)
Fixpoint scalar_loop (fuel : nat) (power : float) (num_points : u32)
    (f : frame) : outcome frame :=
  if word.ltu (number f) num_points then
    match fuel with
    | O => OutOfFuel
    | S fuel' => scalar_loop fuel' power num_points (scalar_step power f)
    end
  else Done f.

(** The body of the batch loop of the SSE4.1 variant. *)
Definition sse4_1_step (vPower zeroValue negativeOneToPower onesMask : __m128)
    (f : frame) : outcome frame :=
  r <- _mm_load_ps (aPtr f) (mach f) ;;
  let '(aVal, m) := r in
  let signMask := _mm_cmplt_ps aVal zeroValue in
  let negatedValues := _mm_sub_ps zeroValue aVal in
  let aVal := _mm_blendv_ps aVal negatedValues signMask in
  let '(cVal, m) := call_powf4 aVal vPower m in
  let cVal :=
    _mm_mul_ps (_mm_blendv_ps onesMask negativeOneToPower signMask) cVal in
  m <- _mm_store_ps (cPtr f) cVal m ;;
  Done (mk_frame (u32_incr (number f)) (cPtr f + 4) (aPtr f + 4) m).

(** The body of the batch loop of the SSE variant. *)
Definition sse_step (vPower zeroValue negativeOneToPower onesMask : __m128)
    (f : frame) : outcome frame :=
  r <- _mm_load_ps (aPtr f) (mach f) ;;
  let '(aVal, m) := r in
  let signMask := _mm_cmplt_ps aVal zeroValue in
  let negatedValues := _mm_sub_ps zeroValue aVal in
  let aVal :=
    _mm_or_ps (_mm_andnot_ps signMask aVal)
              (_mm_and_ps signMask negatedValues) in
  let '(cVal, m) := call_powf4 aVal vPower m in
  let cVal :=
    _mm_mul_ps (_mm_or_ps (_mm_andnot_ps signMask onesMask)
                          (_mm_and_ps signMask negativeOneToPower))
               cVal in
  m <- _mm_store_ps (cPtr f) cVal m ;;
  Done (mk_frame (u32_incr (number f)) (cPtr f + 4) (aPtr f + 4) m).

(** [for (; number < quarterPoints; number++) { ... }] *)
Fixpoint batch_loop (step : frame -> outcome frame) (fuel : nat)
    (quarterPoints : u32) (f : frame) : outcome frame :=
  if word.ltu (number f) quarterPoints then
    match fuel with
    | O => OutOfFuel
    | S fuel' => f' <- step f ;; batch_loop step fuel' quarterPoints f'
    end
  else Done f.

(** Enough iterations for every loop of a call. *)
Definition fuel_of (num_points : u32) : nat :=
  Z.to_nat (word.unsigned num_points).

(** The part of the SSE variants under [#ifdef LV_HAVE_LIB_SIMDMATH]: the
    constants, the batch loop and [number = quarterPoints * 4]. *)
Definition simd_part
    (step : __m128 -> __m128 -> __m128 -> __m128 -> frame -> outcome frame)
    (power : float) (num_points : u32) (f : frame) : outcome frame :=
  let quarterPoints := word.divu num_points (u32_lit 4) in
  let vPower := _mm_set_ps1 power in
  let zeroValue := _mm_setzero_ps in
  let '(p, m) := call_powf F_NEG_ONE power (mach f) in
  let negativeOneToPower := _mm_set_ps1 p in
  let onesMask := _mm_set_ps1 F_ONE in
  f' <- batch_loop (step vPower zeroValue negativeOneToPower onesMask)
          (fuel_of num_points) quarterPoints
          (mk_frame (number f) (cPtr f) (aPtr f) m) ;;
  Done (mk_frame (word.mul quarterPoints (u32_lit 4)) (cPtr f') (aPtr f')
          (mach f')).

(** The aligned SSE4.1 variant. [LV_HAVE_LIB_SIMDMATH] tells whether the
    build defines that macro, which selects the code between the [#ifdef]
    and its [#endif]. *)
Definition volk_32f_s32f_power_32f_a_sse4_1 (LV_HAVE_LIB_SIMDMATH : bool)
    (cVector aVector : addr) (power : float) (num_points : u32)
    (m : machine) : outcome machine :=
  let f := mk_frame (u32_lit 0) cVector aVector m in
  f <- (if LV_HAVE_LIB_SIMDMATH
        then simd_part sse4_1_step power num_points f
        else Done f) ;;
  f <- scalar_loop (fuel_of num_points) power num_points f ;;
  Done (mach f).

(** The aligned SSE variant. *)
Definition volk_32f_s32f_power_32f_a_sse (LV_HAVE_LIB_SIMDMATH : bool)
    (cVector aVector : addr) (power : float) (num_points : u32)
    (m : machine) : outcome machine :=
  let f := mk_frame (u32_lit 0) cVector aVector m in
  f <- (if LV_HAVE_LIB_SIMDMATH
        then simd_part sse_step power num_points f
        else Done f) ;;
  f <- scalar_loop (fuel_of num_points) power num_points f ;;
  Done (mach f).

(** The generic variant. *)
Definition volk_32f_s32f_power_32f_generic (cVector aVector : addr)
    (power : float) (num_points : u32) (m : machine) : outcome machine :=
  let f := mk_frame (u32_lit 0) cVector aVector m in
  f <- scalar_loop (fuel_of num_points) power num_points f ;;
  Done (mach f).

(** The three variants of the kernel, and a call of one of them in a build
    with or without simdmath. *)
Inductive variant : Type := A_SSE4_1 | A_SSE | GENERIC.

Definition run (simdmath : bool) (v : variant) :
    addr -> addr -> float -> u32 -> machine -> outcome machine :=
  match v with
  | A_SSE4_1 => volk_32f_s32f_power_32f_a_sse4_1 simdmath
  | A_SSE => volk_32f_s32f_power_32f_a_sse simdmath
  | GENERIC => volk_32f_s32f_power_32f_generic
  end.

End Kernel.

(** ** What a trace shows *)

(** The memory accesses of a trace, in order. *)
Inductive access : Type :=
| Rd (p : addr)
| Wr (p : addr).

Fixpoint accesses (t : list event) : list access :=
  match t with
  | [] => []
  | Load p :: t' => Rd p :: accesses t'
  | Store p :: t' => Wr p :: accesses t'
  | _ :: t' => accesses t'
  end.

(** The power routines a trace calls, in order. *)
Inductive routine : Type := R_powf | R_powf4.

Fixpoint calls (t : list event) : list routine :=
  match t with
  | [] => []
  | Call_powf _ _ :: t' => R_powf :: calls t'
  | Call_powf4 _ _ :: t' => R_powf4 :: calls t'
  | _ :: t' => calls t'
  end.

(** The indices [lo, lo + 1, ..., lo + len - 1]. *)
Definition indices (lo : Z) (len : nat) : list Z :=
  map (fun k => lo + Z.of_nat k) (seq 0 len).

(** What one round of the scalar loop touches at index [i]. *)
Definition scalar_access (c a : addr) (i : Z) : list access :=
  [Rd (a + i); Wr (c + i)].

(** What one round of the batch loop touches for batch [q]. *)
Definition batch_access (c a : addr) (q : Z) : list access :=
  [Rd (a + 4 * q); Rd (a + 4 * q + 1); Rd (a + 4 * q + 2); Rd (a + 4 * q + 3);
   Wr (c + 4 * q); Wr (c + 4 * q + 1); Wr (c + 4 * q + 2); Wr (c + 4 * q + 3)].

(** [h] is [h0] with the elements [lo <= i < hi] of the output replaced by
    [g] of the corresponding input element of [h0]. *)
Definition image (g : float -> float) (c a : addr) (lo hi : Z)
    (h0 h : addr -> float) : Prop :=
  forall q, h q = if (c + lo <=? q) && (q <? c + hi)
                  then g (h0 (a + (q - c))) else h0 q.

(** No output element is written before a later input element that lies at
    the same address is read: true of disjoint buffers, of an in-place call
    ([cVector = aVector]) and of an output that starts below the input. *)
Definition forward_safe (c a : addr) (n : Z) : Prop :=
  forall i j, 0 <= j < i -> i < n -> a + i <> c + j.

(** The number of times [x] occurs in [l]. *)
Fixpoint occurrences (x : access) (l : list access) : nat :=
  match l with
  | [] => O
  | y :: l' =>
      let same := match x, y with
                  | Rd p, Rd q | Wr p, Wr q => p =? q
                  | _, _ => false
                  end in
      ((if same then 1 else 0) + occurrences x l')%nat
  end.

(** An access that stays inside the buffers of a call on [n] elements: a
    read inside the input, a write inside the output. *)
Definition in_bounds (c a : addr) (n : Z) (x : access) : Prop :=
  match x with
  | Rd p => a <= p < a + n
  | Wr p => c <= p < c + n
  end.

(** The accesses of an SSE variant built with simdmath on [n] elements:
    [n / 4] batches, then the elements from [4 * (n / 4)] on. *)
Definition simd_accesses (c a : addr) (n : Z) : list access :=
  flat_map (batch_access c a) (indices 0 (Z.to_nat (n / 4)))
  ++ flat_map (scalar_access c a) (indices (4 * (n / 4)) (Z.to_nat (n mod 4))).

(** The IEEE negation: the sign bit flipped. *)
Definition f_neg (x : float) : float := word.xor x (u32_lit 0x80000000).

(** The absolute value as the specification words it for the batch loop:
    "negate where the sign mask is set", the sign mask being [x < 0]. *)
Definition spec_abs (x : float) : float :=
  if f_lt x F_ZERO then f_neg x else x.

(** Whether a call runs the batch loop: an SSE variant built with
    simdmath. *)
Definition is_simd (simdmath : bool) (v : variant) : bool :=
  simdmath && match v with GENERIC => false | _ => true end.

(** The alignment the aligned variants ask of both buffers; it matters only
    when the batch loop is compiled in. *)
Definition precondition (simdmath : bool) (v : variant) (c a : addr) : Prop :=
  is_simd simdmath v = true -> aligned a = true /\ aligned c = true.

(** ** A small instance of the power routines

    Enough of [powf] and [powf4] to run the kernel on examples: exact
    squares and cubes, and the square root with the special cases the C
    standard lists for [pow] (Annex F.10.4.4). It stands for neither
    library. *)

Definition F_HALF : float := u32_lit 0x3F000000.
Definition F_TWO : float := u32_lit 0x40000000.
Definition F_THREE : float := u32_lit 0x40400000.
Definition F_NAN : float := u32_lit Binary32.indefinite.

Definition powf_example (x y : float) : float :=
  if word.eqb y F_TWO then f_mul x x
  else if word.eqb y F_THREE then f_mul (f_mul x x) x
  else if word.eqb y F_HALF then
    if is_nan x then quiet x
    else if word.eqb x F_NEG_INF then F_INF
    else if f_lt x F_ZERO then F_NAN
    else f_abs (encode (SFsqrt Binary32.prec Binary32.emax (decode x)))
  else F_NAN.

(** [powf4] is given bases that are not negative; this instance looks at
    the magnitude of the base only. *)
Definition powf4_lane_example (x y : float) : float :=
  powf_example (f_abs x) y.

(** A machine with an empty trace whose memory holds [l] from address
    [base] on and [filler] everywhere else. *)
Definition machine_of (base : addr) (l : list float) (filler : float) :
    machine :=
  mk_machine
    (fun p => if base <=? p then nth (Z.to_nat (p - base)) l filler
              else filler)
    [].

(** The bit patterns of the [n] elements from address [c] on after a call,
    and nothing when the call did not finish. *)
Definition dump (c : addr) (n : nat) (o : outcome machine) : list Z :=
  match o with
  | Done m => map (fun i => word.unsigned (mem m (c + Z.of_nat i))) (seq 0 n)
  | _ => []
  end.

(** The floats 0.0, 1.0, ..., 9.0. *)
Definition zero_to_nine : list float :=
  map u32_lit [0x00000000; 0x3F800000; 0x40000000; 0x40400000; 0x40800000;
               0x40A00000; 0x40C00000; 0x40E00000; 0x41000000; 0x41100000].

(** The floats -2.0, -1.0, 0.0, 1.0, 2.0. *)
Definition minus_two_to_two : list float :=
  map u32_lit [0xC0000000; 0xBF800000; 0x00000000; 0x3F800000; 0x40000000].

(** Minus infinity followed by three ones. *)
Definition minus_infinity_and_ones : list float :=
  [F_NEG_INF; F_ONE; F_ONE; F_ONE].


(** ** Words: masks and lane selection *)

Lemma unsigned_ALL_ONES : word.unsigned ALL_ONES = Z.ones 32.
Proof. reflexivity. Qed.

Lemma unsigned_NO_BITS : word.unsigned NO_BITS = 0.
Proof. reflexivity. Qed.

Lemma u32_range (x : u32) : 0 <= word.unsigned x < 2 ^ 32.
Proof. apply (word.unsigned_range x). Qed.

Lemma land_ones32 (x : u32) : Z.land (Z.ones 32) (word.unsigned x) = word.unsigned x.
Proof.
  rewrite Z.land_comm, Z.land_ones by lia.
  apply Z.mod_small, u32_range.
Qed.

Lemma select_zero (a b : u32) :
  word.or (andnot_lane NO_BITS a) (word.and NO_BITS b) = a.
Proof.
  apply word.unsigned_inj. unfold andnot_lane.
  rewrite word.unsigned_or, !word.unsigned_and, word.unsigned_not.
  rewrite unsigned_NO_BITS. unfold word.wrap.
  change (Z.lnot 0 mod 2 ^ 32) with (Z.ones 32).
  rewrite land_ones32, Z.land_0_l.
  rewrite (Z.mod_small (word.unsigned a)) by apply u32_range.
  change (0 mod 2 ^ 32) with 0. rewrite Z.lor_0_r.
  apply Z.mod_small, u32_range.
Qed.

Lemma select_ones (a b : u32) :
  word.or (andnot_lane ALL_ONES a) (word.and ALL_ONES b) = b.
Proof.
  apply word.unsigned_inj. unfold andnot_lane.
  rewrite word.unsigned_or, !word.unsigned_and, word.unsigned_not.
  rewrite unsigned_ALL_ONES. unfold word.wrap.
  change (Z.lnot (Z.ones 32) mod 2 ^ 32) with 0.
  rewrite land_ones32, Z.land_0_l.
  rewrite (Z.mod_small (word.unsigned b)) by apply u32_range.
  change (0 mod 2 ^ 32) with 0. rewrite Z.lor_0_l.
  apply Z.mod_small, u32_range.
Qed.

(** On a mask that [_mm_cmplt_ps] produced, the and/andnot/or selection of
    the SSE variant picks the lane [_mm_blendv_ps] picks. *)
Lemma select_is_blendv (x y a b : u32) :
  word.or (andnot_lane (cmplt_lane x y) a) (word.and (cmplt_lane x y) b)
  = blendv_lane a b (cmplt_lane x y).
Proof.
  unfold cmplt_lane, blendv_lane.
  destruct (f_lt x y).
  - rewrite select_ones. reflexivity.
  - rewrite select_zero. reflexivity.
Qed.

Lemma blendv_cmplt (x y a b : u32) :
  blendv_lane a b (cmplt_lane x y) = if f_lt x y then b else a.
Proof. unfold cmplt_lane, blendv_lane. destruct (f_lt x y); reflexivity. Qed.

(** ** Binary32: the fields of a bit pattern *)

Lemma bits_split (X : Z) :
  0 <= X < 2 ^ 32 ->
  X = Binary32.sign_weight (Binary32.sign_of X)
      + Binary32.expo_of X * 8388608 + Binary32.frac_of X
  /\ 0 <= Binary32.expo_of X < 256
  /\ 0 <= Binary32.frac_of X < 8388608.
Proof.
  intros HX.
  unfold Binary32.sign_of, Binary32.expo_of, Binary32.frac_of.
  change 255 with (Z.ones 8). change 8388607 with (Z.ones 23).
  rewrite !Z.land_ones, Z.shiftr_div_pow2 by lia.
  pose proof (Z.testbit_spec' X 31 ltac:(lia)) as Hs.
  destruct (Z.testbit X 31); cbn [Z.b2z Binary32.sign_weight] in *;
    change (2 ^ 31) with 2147483648 in *; change (2 ^ 23) with 8388608 in *;
    change (2 ^ 8) with 256 in *; change (2 ^ 32) with 4294967296 in *;
    Z.div_mod_to_equations; lia.
Qed.

Lemma unsigned_f_abs (x : float) :
  word.unsigned (f_abs x) = word.unsigned x mod 2 ^ 31.
Proof.
  unfold f_abs, u32_lit.
  rewrite word.unsigned_and, word.unsigned_of_Z. unfold word.wrap.
  change (0x7FFFFFFF mod 2 ^ 32) with (Z.ones 31).
  rewrite Z.land_ones by lia.
  pose proof (u32_range x).
  apply Z.mod_small.
  change (2 ^ 31) with 2147483648 in *; change (2 ^ 32) with 4294967296 in *.
  Z.div_mod_to_equations; lia.
Qed.

Lemma decode_F_ZERO : decode F_ZERO = S754_zero false.
Proof. reflexivity. Qed.

(** The shapes of a value that compares below zero. *)
Lemma f_lt_zero_shape (x : float) :
  f_lt x F_ZERO = true <->
  decode x = S754_infinity true \/
  exists m e, decode x = S754_finite true m e.
Proof.
  unfold f_lt. rewrite decode_F_ZERO.
  destruct (decode x) as [s|s| |s m e]; cbn; try destruct s; cbn;
    split; intros H; try discriminate; auto;
    try (destruct H as [H|(m'&e'&H)]; discriminate); eauto.
Qed.

(** In bits: below zero means sign bit set, not a zero and not a NaN. *)
Lemma f_lt_zero_bits (x : float) :
  f_lt x F_ZERO = true <->
  2 ^ 31 < word.unsigned x <= 0xFF800000.
Proof.
  rewrite f_lt_zero_shape. unfold decode, Binary32.decode_bits.
  pose proof (u32_range x) as HX.
  destruct (bits_split _ HX) as (Hsplit & He & Hf).
  remember (Binary32.sign_of (word.unsigned x)) as s eqn:Es in *.
  remember (Binary32.expo_of (word.unsigned x)) as e eqn:Ee in *.
  remember (Binary32.frac_of (word.unsigned x)) as m eqn:Em in *.
  remember (word.unsigned x) as X eqn:EX in *.
  clear Es Ee Em EX.
  change (2 ^ 31) with 2147483648. change 0xFF800000 with 4286578688.
  destruct (Z.eqb_spec e 0) as [He0|He0].
  - destruct m as [|p|p]; destruct s; cbn [Binary32.sign_weight] in Hsplit;
      (split; [intros [H|(m'&e'&H)]; try discriminate; try lia
              | intros H; try lia; right; eauto]).
    all: try (injection H as -> ; lia).
    all: try (inversion H; lia).
  - destruct (Z.eqb_spec e 255) as [He1|He1].
    + destruct (Z.eqb_spec m 0) as [Hm|Hm]; destruct s;
        cbn [Binary32.sign_weight] in Hsplit;
        (split; [intros [H|(m'&e'&H)]; try discriminate; try lia
                | intros H; try lia; left; reflexivity]).
      all: try (inversion H; lia).
    + destruct (m + 8388608) as [|p|p] eqn:Emp; try lia.
      destruct s; cbn [Binary32.sign_weight] in Hsplit;
        (split; [intros [H|(m'&e'&H)]; try discriminate; try lia
                | intros H; try lia; right; eauto]).
      all: try (inversion H; lia).
Qed.

(** Negating a value below zero clears its sign bit and nothing else:
    [0 - x] is exact there. *)
Lemma f_sub_zero_negative (x : float) :
  f_lt x F_ZERO = true -> f_sub F_ZERO x = f_abs x.
Proof.
  intros Hlt.
  pose proof (proj1 (f_lt_zero_shape x) Hlt) as Hshape.
  apply word.unsigned_inj. rewrite unsigned_f_abs.
  unfold f_sub, sse_arith.
  replace (is_nan F_ZERO) with false by reflexivity.
  assert (Hnan : is_nan x = false).
  { unfold is_nan. destruct Hshape as [->|(m&e&->)]; reflexivity. }
  rewrite Hnan, decode_F_ZERO.
  unfold encode. rewrite word.unsigned_of_Z. unfold word.wrap.
  revert Hshape. unfold decode, Binary32.decode_bits.
  pose proof (u32_range x) as HX.
  destruct (bits_split _ HX) as (Hsplit & He & Hf).
  remember (Binary32.sign_of (word.unsigned x)) as s eqn:Es in *.
  remember (Binary32.expo_of (word.unsigned x)) as e eqn:Ee in *.
  remember (Binary32.frac_of (word.unsigned x)) as m eqn:Em in *.
  remember (word.unsigned x) as X eqn:EX in *.
  clear Es Ee Em EX.
  change (2 ^ 31) with 2147483648. change (2 ^ 32) with 4294967296 in *.
  destruct (Z.eqb_spec e 0) as [He0|He0].
  - destruct m as [|p|p]; try lia.
    + intros [H|(m'&e'&H)]; discriminate.
    + intros [H|(m'&e'&H)]; try discriminate.
      injection H as Hs _ _. rewrite Hs in *.
      cbn [SFsub negb Binary32.encode_bits Binary32.sign_weight] in *.
      destruct (Z.ltb_spec (Z.pos p) 8388608); try lia.
      Z.div_mod_to_equations; lia.
  - destruct (Z.eqb_spec e 255) as [He1|He1].
    + destruct (Z.eqb_spec m 0) as [Hm|Hm].
      * intros [H|(m'&e'&H)]; try discriminate.
        injection H as Hs. rewrite Hs in *.
        cbn [SFsub negb Binary32.encode_bits Binary32.sign_weight] in *.
        change (0 + 0x7F800000) with 2139095040.
        Z.div_mod_to_equations; lia.
      * intros [H|(m'&e'&H)]; discriminate.
    + destruct (m + 8388608) as [|p|p] eqn:Emp; try lia.
      intros [H|(m'&e'&H)]; try discriminate.
      injection H as Hs _ _. rewrite Hs in *.
      cbn [SFsub negb Binary32.encode_bits Binary32.sign_weight] in *.
      destruct (Z.ltb_spec (Z.pos p) 8388608); try lia.
      Z.div_mod_to_equations; lia.
Qed.

(** ** Multiplying by one *)

Lemma digits2_pos_size (p : positive) : digits2_pos p = Pos.size p.
Proof. induction p as [p IH|p IH|]; cbn; rewrite ?IH; reflexivity. Qed.

Lemma digits2_pos_bounds (p : positive) :
  2 ^ (Z.pos (digits2_pos p) - 1) <= Z.pos p < 2 ^ Z.pos (digits2_pos p).
Proof.
  induction p as [p IH|p IH|].
  - cbn [digits2_pos]. rewrite Pos2Z.inj_succ.
    replace (Z.succ (Z.pos (digits2_pos p)) - 1) with (Z.pos (digits2_pos p)) by lia.
    rewrite Z.pow_succ_r by lia.
    replace (Z.pos (digits2_pos p)) with (Z.pos (digits2_pos p) - 1 + 1) at 1 by lia.
    rewrite Z.pow_add_r by lia. lia.
  - cbn [digits2_pos]. rewrite Pos2Z.inj_succ.
    replace (Z.succ (Z.pos (digits2_pos p)) - 1) with (Z.pos (digits2_pos p)) by lia.
    rewrite Z.pow_succ_r by lia.
    replace (Z.pos (digits2_pos p)) with (Z.pos (digits2_pos p) - 1 + 1) at 1 by lia.
    rewrite Z.pow_add_r by lia. lia.
  - cbn. lia.
Qed.

(** The number of digits of a mantissa between two powers of two. *)
Lemma digits2_pos_between (p : positive) (k : Z) :
  0 < k -> 2 ^ (k - 1) <= Z.pos p < 2 ^ k -> Z.pos (digits2_pos p) = k.
Proof.
  intros Hk Hp. pose proof (digits2_pos_bounds p) as Hd.
  set (d := Z.pos (digits2_pos p)) in *.
  assert (Hdpos : 0 < d) by (unfold d; lia).
  destruct (Z.lt_trichotomy d k) as [Hlt|[Heq|Hgt]]; [|exact Heq|]; exfalso.
  - assert (2 ^ d <= 2 ^ (k - 1)) by (apply Z.pow_le_mono_r; lia). lia.
  - assert (2 ^ k <= 2 ^ (d - 1)) by (apply Z.pow_le_mono_r; lia). lia.
Qed.

Lemma digits2_pos_below (p : positive) (k : Z) :
  0 <= k -> Z.pos p < 2 ^ k -> Z.pos (digits2_pos p) <= k.
Proof.
  intros Hk Hp. pose proof (digits2_pos_bounds p) as Hd.
  set (d := Z.pos (digits2_pos p)) in *.
  destruct (Z.le_gt_cases d k) as [Hle|Hgt]; [exact Hle|]. exfalso.
  assert (2 ^ k <= 2 ^ (d - 1)) by (apply Z.pow_le_mono_r; lia). lia.
Qed.

(** One times a finite value in canonical form is that value: the product
    of the mantissas is shifted back by the 23 places it gained, and nothing
    is rounded away. *)
Lemma SFmul_one_finite (s : bool) (m : positive) (e : Z) :
  fexp Binary32.prec Binary32.emax (Z.pos (digits2_pos m) + e) = e ->
  e <= 104 ->
  SFmul Binary32.prec Binary32.emax (S754_finite false 8388608 (-23))
    (S754_finite s m e)
  = S754_finite s m e.
Proof.
  intros Hcanon He.
  unfold SFmul. cbn [xorb Pos.mul].
  unfold binary_round_aux, shr_fexp.
  cbn [Zdigits2 digits2_pos].
  rewrite !Pos2Z.inj_succ.
  replace (Z.succ (Z.succ (Z.succ (Z.succ (Z.succ (Z.succ (Z.succ (Z.succ
            (Z.succ (Z.succ (Z.succ (Z.succ (Z.succ (Z.succ (Z.succ (Z.succ
            (Z.succ (Z.succ (Z.succ (Z.succ (Z.succ (Z.succ (Z.succ
            (Z.pos (digits2_pos m)))))))))))))))))))))))) + (-23 + e))
    with (Z.pos (digits2_pos m) + e) by lia.
  rewrite Hcanon.
  replace (e - (-23 + e)) with 23 by lia.
  cbn [shr shr_record_of_loc iter_pos shr_1 orb shr_m loc_of_shr_record
       round_nearest_even Zdigits2].
  replace (-23 + e + 23) with e by lia.
  rewrite Hcanon, Z.sub_diag. cbn [shr shr_m].
  unfold Binary32.emax, Binary32.prec. change (128 - 24) with 104.
  destruct (Z.leb_spec e 104); [reflexivity | lia].
Qed.

(** A bit pattern that is not a NaN is the encoding of its value. *)
Lemma encode_decode (x : float) : is_nan x = false -> encode (decode x) = x.
Proof.
  intros Hnan. apply word.unsigned_inj.
  unfold encode. rewrite word.unsigned_of_Z. unfold word.wrap.
  revert Hnan. unfold is_nan, decode, Binary32.decode_bits.
  pose proof (u32_range x) as HX.
  destruct (bits_split _ HX) as (Hsplit & He & Hf).
  remember (Binary32.sign_of (word.unsigned x)) as s eqn:Es in *.
  remember (Binary32.expo_of (word.unsigned x)) as e eqn:Ee in *.
  remember (Binary32.frac_of (word.unsigned x)) as m eqn:Em in *.
  remember (word.unsigned x) as X eqn:EX in *.
  clear Es Ee Em EX.
  change (2 ^ 32) with 4294967296 in *.
  destruct (Z.eqb_spec e 0) as [He0|He0].
  - destruct m as [|p|p]; try lia; intros _;
      cbn [Binary32.encode_bits].
    + rewrite Z.mod_small; lia.
    + destruct (Z.ltb_spec (Z.pos p) 8388608); try lia.
      rewrite Z.mod_small; lia.
  - destruct (Z.eqb_spec e 255) as [He1|He1].
    + destruct (Z.eqb_spec m 0) as [Hm|Hm]; [|discriminate].
      intros _. cbn [Binary32.encode_bits].
      change 0x7F800000 with 2139095040.
      destruct s; cbn [Binary32.sign_weight] in *; rewrite Z.mod_small; lia.
    + destruct (m + 8388608) as [|p|p] eqn:Emp; try lia.
      intros _. cbn [Binary32.encode_bits].
      destruct (Z.ltb_spec (Z.pos p) 8388608); try lia.
      destruct s; cbn [Binary32.sign_weight] in *; rewrite Z.mod_small; lia.
Qed.

(** What [decode] gives is in canonical form. *)
Lemma decode_canonical (x : float) (s : bool) (m : positive) (e : Z) :
  decode x = S754_finite s m e ->
  fexp Binary32.prec Binary32.emax (Z.pos (digits2_pos m) + e) = e
  /\ e <= 104.
Proof.
  unfold decode, Binary32.decode_bits.
  pose proof (u32_range x) as HX.
  destruct (bits_split _ HX) as (_ & He & Hf).
  remember (Binary32.sign_of (word.unsigned x)) as s0 eqn:Es in *.
  remember (Binary32.expo_of (word.unsigned x)) as e0 eqn:Ee in *.
  remember (Binary32.frac_of (word.unsigned x)) as m0 eqn:Em in *.
  clear Es Ee Em HX.
  unfold fexp, emin, Binary32.prec, Binary32.emax.
  destruct (Z.eqb_spec e0 0) as [He0|He0].
  - destruct m0 as [|p|p]; try discriminate.
    intros H. injection H as _ <- <-.
    pose proof (digits2_pos_below p 23 ltac:(lia) ltac:(cbn; lia)). lia.
  - destruct (Z.eqb_spec e0 255) as [He1|He1].
    + destruct (Z.eqb_spec m0 0); discriminate.
    + destruct (m0 + 8388608) as [|p|p] eqn:Emp; try discriminate.
      intros H. injection H as _ <- <-.
      pose proof (digits2_pos_between p 24 ltac:(lia)) as Hd.
      rewrite Hd by (change (2 ^ (24 - 1)) with 8388608;
                     change (2 ^ 24) with 16777216; lia).
      lia.
Qed.

(** Multiplying by [1.0] changes nothing, except that a signalling NaN
    comes back quiet. *)
Lemma f_mul_one_l (y : float) : is_nan y = false -> f_mul F_ONE y = y.
Proof.
  intros Hnan. unfold f_mul, sse_arith.
  replace (is_nan F_ONE) with false by reflexivity. rewrite Hnan.
  replace (decode F_ONE) with (S754_finite false 8388608 (-23))
    by reflexivity.
  rewrite <- (encode_decode y Hnan) at 2. f_equal.
  destruct (decode y) as [s|s| |s m e] eqn:Hy.
  - reflexivity.
  - reflexivity.
  - unfold is_nan in Hnan. rewrite Hy in Hnan. discriminate.
  - destruct (decode_canonical y s m e Hy) as (Hc & He).
    apply SFmul_one_finite; assumption.
Qed.

(** ** Negation and absolute value *)

Lemma f_neg_sign_set (x : float) :
  Z.testbit (word.unsigned x) 31 = true -> f_neg x = f_abs x.
Proof.
  intros Hs. apply word.unsigned_inj. rewrite unsigned_f_abs.
  unfold f_neg, u32_lit.
  rewrite word.unsigned_xor_nowrap, word.unsigned_of_Z. unfold word.wrap.
  change (0x80000000 mod 2 ^ 32) with (2 ^ 31).
  pose proof (u32_range x) as HX.
  pose proof (Z.testbit_spec' (word.unsigned x) 31 ltac:(lia)) as Hb.
  rewrite Hs in Hb. cbn [Z.b2z] in Hb.
  remember (word.unsigned x) as X eqn:EX. clear EX Hs.
  assert (HXr : X = X mod 2 ^ 31 + 2 ^ 31).
  { change (2 ^ 31) with 2147483648 in *.
    change (2 ^ 32) with 4294967296 in *.
    Z.div_mod_to_equations. lia. }
  assert (Hland : Z.land (X mod 2 ^ 31) (2 ^ 31) = 0).
  { apply Z.bits_inj'. intros k Hk.
    rewrite Z.land_spec, Z.bits_0, Z.pow2_bits_eqb by lia.
    destruct (Z.eqb_spec 31 k) as [<-|Hne].
    - rewrite Z.mod_pow2_bits_high by lia. reflexivity.
    - apply andb_false_r. }
  rewrite HXr at 1.
  rewrite (Z.add_nocarry_lxor _ _ Hland).
  rewrite Z.lxor_assoc, Z.lxor_nilpotent, Z.lxor_0_r. reflexivity.
Qed.

Lemma f_neg_negative (x : float) : f_lt x F_ZERO = true -> f_neg x = f_abs x.
Proof.
  intros Hlt. apply f_neg_sign_set.
  apply f_lt_zero_bits in Hlt.
  pose proof (u32_range x) as HX.
  pose proof (Z.testbit_spec' (word.unsigned x) 31 ltac:(lia)) as Hb.
  destruct (Z.testbit (word.unsigned x) 31); [reflexivity|].
  cbn [Z.b2z] in Hb. exfalso.
  remember (word.unsigned x) as X eqn:EX. clear EX.
  change (2 ^ 31) with 2147483648 in *. change (2 ^ 32) with 4294967296 in *.
  Z.div_mod_to_equations. lia.
Qed.

Lemma f_abs_sign_clear (x : float) :
  Z.testbit (word.unsigned x) 31 = false -> f_abs x = x.
Proof.
  intros Hs. apply word.unsigned_inj. rewrite unsigned_f_abs.
  pose proof (u32_range x) as HX.
  pose proof (Z.testbit_spec' (word.unsigned x) 31 ltac:(lia)) as Hb.
  rewrite Hs in Hb. cbn [Z.b2z] in Hb.
  remember (word.unsigned x) as X eqn:EX. clear EX Hs.
  change (2 ^ 31) with 2147483648 in *. change (2 ^ 32) with 4294967296 in *.
  Z.div_mod_to_equations. lia.
Qed.

(** The absolute value of the specification is [fabsf] on every lane that
    compares below zero and on every lane whose sign bit is clear: on all
    but negative zero and the NaNs with the sign bit set. *)
Lemma spec_abs_is_f_abs (x : float) :
  f_lt x F_ZERO = true \/ Z.testbit (word.unsigned x) 31 = false ->
  spec_abs x = f_abs x.
Proof.
  unfold spec_abs. intros [Hlt|Hs].
  - rewrite Hlt. apply f_neg_negative, Hlt.
  - destruct (f_lt x F_ZERO) eqn:Hlt.
    + apply f_neg_negative, Hlt.
    + symmetry. apply f_abs_sign_clear, Hs.
Qed.

(** ** NaNs *)

(** In fields: a NaN has all exponent bits set and a fraction that is not
    zero. *)
Lemma is_nan_fields (x : float) :
  is_nan x = true <->
  Binary32.expo_of (word.unsigned x) = 255
  /\ Binary32.frac_of (word.unsigned x) <> 0.
Proof.
  unfold is_nan, decode, Binary32.decode_bits.
  pose proof (u32_range x) as HX.
  destruct (bits_split _ HX) as (_ & He & Hf).
  remember (Binary32.sign_of (word.unsigned x)) as s eqn:Es in *.
  remember (Binary32.expo_of (word.unsigned x)) as e eqn:Ee in *.
  remember (Binary32.frac_of (word.unsigned x)) as m eqn:Em in *.
  clear Es Ee Em.
  destruct (Z.eqb_spec e 0) as [He0|He0].
  - destruct m as [|p|p]; split; intros H; try discriminate; lia.
  - destruct (Z.eqb_spec e 255) as [He1|He1].
    + destruct (Z.eqb_spec m 0) as [Hm|Hm]; split; intros H;
        try discriminate; try reflexivity; try lia; try (split; assumption).
    + destruct (m + 8388608) as [|p|p] eqn:Emp; try lia;
        split; intros H; try discriminate; lia.
Qed.

Lemma quiet_is_nan (x : float) : is_nan x = true -> is_nan (quiet x) = true.
Proof.
  rewrite !is_nan_fields. intros (He & Hf).
  unfold quiet, u32_lit.
  rewrite word.unsigned_or_nowrap, word.unsigned_of_Z. unfold word.wrap.
  change (0x00400000 mod 2 ^ 32) with 4194304.
  unfold Binary32.expo_of, Binary32.frac_of in *.
  rewrite Z.shiftr_lor.
  change (Z.shiftr 4194304 23) with 0. rewrite Z.lor_0_r.
  rewrite Z.land_lor_distr_l.
  change (Z.land 4194304 8388607) with 4194304.
  split; [exact He|].
  intros H. apply Z.lor_eq_0_iff in H. lia.
Qed.

(** A NaN on the left of a product gives a NaN. *)
Lemma f_mul_nan_l (x y : float) : is_nan x = true -> is_nan (f_mul x y) = true.
Proof.
  intros H. unfold f_mul, sse_arith. rewrite H. apply quiet_is_nan, H.
Qed.

(** ** Lists of events and indices *)

Lemma accesses_app (t u : list event) :
  accesses (t ++ u) = accesses t ++ accesses u.
Proof.
  induction t as [|e t IH]; [reflexivity|].
  destruct e; cbn; rewrite IH; reflexivity.
Qed.

Lemma calls_app (t u : list event) : calls (t ++ u) = calls t ++ calls u.
Proof.
  induction t as [|e t IH]; [reflexivity|].
  destruct e; cbn; rewrite IH; reflexivity.
Qed.

Lemma occurrences_app (x : access) (l l' : list access) :
  occurrences x (l ++ l') = (occurrences x l + occurrences x l')%nat.
Proof. induction l as [|y l IH]; cbn; [reflexivity | rewrite IH; lia]. Qed.

Lemma indices_snoc (lo : Z) (len : nat) :
  indices lo (S len) = indices lo len ++ [lo + Z.of_nat len].
Proof.
  unfold indices. rewrite seq_S, map_app. reflexivity.
Qed.

Lemma indices_next (lo k : Z) :
  lo <= k ->
  indices lo (Z.to_nat (k + 1 - lo)) = indices lo (Z.to_nat (k - lo)) ++ [k].
Proof.
  intros H. replace (Z.to_nat (k + 1 - lo)) with (S (Z.to_nat (k - lo))) by lia.
  rewrite indices_snoc. do 2 f_equal. lia.
Qed.

Lemma repeat_next {A : Type} (x : A) (lo k : Z) :
  lo <= k ->
  repeat x (Z.to_nat (k + 1 - lo)) = repeat x (Z.to_nat (k - lo)) ++ [x].
Proof.
  intros H. replace (Z.to_nat (k + 1 - lo)) with (S (Z.to_nat (k - lo))) by lia.
  rewrite <- repeat_cons. reflexivity.
Qed.

Lemma in_indices (lo : Z) (len : nat) (i : Z) :
  In i (indices lo len) <-> lo <= i < lo + Z.of_nat len.
Proof.
  unfold indices. rewrite in_map_iff. split.
  - intros (k & <- & Hk). apply in_seq in Hk. lia.
  - intros H. exists (Z.to_nat (i - lo)). split; [lia|]. apply in_seq. lia.
Qed.

(** ** Bounds and multiplicities of the accesses *)

Lemma scalar_access_in_bounds (c a : addr) (n lo : Z) (len : nat) :
  0 <= lo -> lo + Z.of_nat len <= n ->
  Forall (in_bounds c a n) (flat_map (scalar_access c a) (indices lo len)).
Proof.
  intros Hlo Hhi. apply Forall_flat_map, Forall_forall. intros i Hi.
  apply in_indices in Hi. unfold scalar_access.
  repeat constructor; cbn [in_bounds]; lia.
Qed.

Lemma batch_access_in_bounds (c a : addr) (n : Z) (len : nat) :
  4 * Z.of_nat len <= n ->
  Forall (in_bounds c a n) (flat_map (batch_access c a) (indices 0 len)).
Proof.
  intros Hhi. apply Forall_flat_map, Forall_forall. intros i Hi.
  apply in_indices in Hi. unfold batch_access.
  repeat constructor; cbn [in_bounds]; lia.
Qed.

Lemma scalar_access_writes (c a : addr) (lo : Z) (len : nat) (i : Z) :
  occurrences (Wr (c + i)) (flat_map (scalar_access c a) (indices lo len))
  = if (lo <=? i) && (i <? lo + Z.of_nat len) then 1%nat else 0%nat.
Proof.
  induction len as [|len IH].
  - cbn. destruct (Z.leb_spec lo i), (Z.ltb_spec i (lo + 0));
      cbn [andb]; try reflexivity; lia.
  - rewrite indices_snoc, flat_map_app, occurrences_app, IH.
    cbn [flat_map scalar_access app occurrences].
    destruct (Z.eqb_spec (c + i) (c + (lo + Z.of_nat len)));
      destruct (Z.leb_spec lo i), (Z.ltb_spec i (lo + Z.of_nat len)),
        (Z.ltb_spec i (lo + Z.of_nat (S len))); cbn [andb]; lia.
Qed.

Lemma batch_access_writes (c a : addr) (len : nat) (i : Z) :
  occurrences (Wr (c + i)) (flat_map (batch_access c a) (indices 0 len))
  = if (0 <=? i) && (i <? 4 * Z.of_nat len) then 1%nat else 0%nat.
Proof.
  induction len as [|len IH].
  - cbn. destruct (Z.leb_spec 0 i), (Z.ltb_spec i 0);
      cbn [andb]; try reflexivity; lia.
  - rewrite indices_snoc, flat_map_app, occurrences_app, IH.
    cbn [flat_map batch_access app occurrences].
    destruct (Z.eqb_spec (c + i) (c + 4 * (0 + Z.of_nat len)));
      destruct (Z.eqb_spec (c + i) (c + 4 * (0 + Z.of_nat len) + 1));
      destruct (Z.eqb_spec (c + i) (c + 4 * (0 + Z.of_nat len) + 2));
      destruct (Z.eqb_spec (c + i) (c + 4 * (0 + Z.of_nat len) + 3));
      destruct (Z.leb_spec 0 i), (Z.ltb_spec i (4 * Z.of_nat len)),
        (Z.ltb_spec i (4 * Z.of_nat (S len))); cbn [andb]; lia.
Qed.

(** ** Loops *)

Section Loops.

Variable powf : float -> float -> float.

Lemma unsigned_u32_incr (n : u32) :
  word.unsigned n + 1 < 2 ^ 32 ->
  word.unsigned (u32_incr n) = word.unsigned n + 1.
Proof.
  intros H. unfold u32_incr, u32_lit.
  rewrite word.unsigned_add, word.unsigned_of_Z. unfold word.wrap.
  change (1 mod 2 ^ 32) with 1.
  apply Z.mod_small. pose proof (u32_range n). lia.
Qed.

(** The scalar loop is the batch loop of a step that cannot fault. *)
Lemma scalar_loop_as_batch (power : float) (N : u32) (fuel : nat) (f : frame) :
  scalar_loop powf fuel power N f
  = batch_loop (fun f => Done (scalar_step powf power f)) fuel N f.
Proof.
  revert f. induction fuel as [|fuel IH]; intros f; cbn [scalar_loop batch_loop].
  - reflexivity.
  - rewrite IH. reflexivity.
Qed.

(** A loop that keeps an invariant [P k], [k] the value of [number], and
    has fuel for the rounds that are left, finishes with [P] at the bound. *)
Lemma batch_loop_invariant (P : Z -> frame -> Prop)
    (step : frame -> outcome frame) (N : u32) :
  (forall k f, P k f -> word.unsigned (number f) = k) ->
  (forall k f, P k f -> k < word.unsigned N ->
               exists f', step f = Done f' /\ P (k + 1) f') ->
  forall (r fuel : nat) (k : Z) (f : frame),
    P k f -> Z.of_nat r = word.unsigned N - k -> (r <= fuel)%nat ->
    exists f', batch_loop step fuel N f = Done f' /\ P (word.unsigned N) f'.
Proof.
  intros Hnum Hstep. induction r as [|r IH]; intros fuel k f HP Hr Hfuel.
  - exists f. assert (Hk : k = word.unsigned N) by lia.
    split; [|rewrite <- Hk; exact HP].
    destruct fuel; cbn [batch_loop];
      rewrite word.unsigned_ltu, (Hnum _ _ HP), Hk, Z.ltb_irrefl; reflexivity.
  - destruct fuel as [|fuel]; [lia|]. cbn [batch_loop].
    rewrite word.unsigned_ltu, (Hnum _ _ HP).
    destruct (Z.ltb_spec k (word.unsigned N)) as [Hlt|Hge]; [|lia].
    destruct (Hstep _ _ HP Hlt) as (f' & -> & HP'). cbn [bind].
    apply (IH fuel (k + 1) f' HP'); lia.
Qed.

End Loops.

(** ** One round of each loop *)

Section Steps.

Variable powf4_lane : float -> float -> float.

(** What the batch loop of the SSE4.1 variant hands to [powf4] for a lane
    holding [x], and what it stores for it; [n1] is the lane of
    [negativeOneToPower]. *)
Definition sse4_1_base (x : float) : float :=
  blendv_lane x (f_sub F_ZERO x) (cmplt_lane x F_ZERO).

Definition sse4_1_lane (n1 power x : float) : float :=
  f_mul (blendv_lane F_ONE n1 (cmplt_lane x F_ZERO))
        (powf4_lane (sse4_1_base x) power).

(** The same for the SSE variant. *)
Definition sse_base (x : float) : float :=
  word.or (andnot_lane (cmplt_lane x F_ZERO) x)
          (word.and (cmplt_lane x F_ZERO) (f_sub F_ZERO x)).

Definition sse_lane (n1 power x : float) : float :=
  f_mul (word.or (andnot_lane (cmplt_lane x F_ZERO) F_ONE)
                 (word.and (cmplt_lane x F_ZERO) n1))
        (powf4_lane (sse_base x) power).

(** The frame after one round of a batch loop that stores [g x] for an
    input lane [x] and calls [powf4] on the lanes [b x]. *)
Definition batch_frame (g b : float -> float) (vPower : __m128) (f : frame) :
    frame :=
  let h := mem (mach f) in
  let a := aPtr f in
  let c := cPtr f in
  mk_frame (u32_incr (number f)) (c + 4) (a + 4)
    (mk_machine
       (poke (c + 3) (g (h (a + 3)))
          (poke (c + 2) (g (h (a + 2)))
             (poke (c + 1) (g (h (a + 1)))
                (poke c (g (h a)) h))))
       (trace (mach f)
        ++ [Load a; Load (a + 1); Load (a + 2); Load (a + 3);
            Call_powf4 (mk_m128 (b (h a)) (b (h (a + 1)))
                                (b (h (a + 2))) (b (h (a + 3)))) vPower;
            Store c; Store (c + 1); Store (c + 2); Store (c + 3)])).

Lemma _mm_load_ps_aligned (p : addr) (m : machine) :
  aligned p = true ->
  _mm_load_ps p m
  = Done (mk_m128 (mem m p) (mem m (p + 1)) (mem m (p + 2)) (mem m (p + 3)),
          mk_machine (mem m)
            (trace m ++ [Load p; Load (p + 1); Load (p + 2); Load (p + 3)])).
Proof.
  intros Hp. unfold _mm_load_ps. rewrite Hp. destruct m as [h t].
  unfold load, record. cbn [mem trace]. rewrite <- !app_assoc. reflexivity.
Qed.

Lemma _mm_store_ps_aligned (p : addr) (v : __m128) (m : machine) :
  aligned p = true ->
  _mm_store_ps p v m
  = Done (mk_machine
            (poke (p + 3) (lane3 v)
               (poke (p + 2) (lane2 v)
                  (poke (p + 1) (lane1 v) (poke p (lane0 v) (mem m)))))
            (trace m ++ [Store p; Store (p + 1); Store (p + 2); Store (p + 3)])).
Proof.
  intros Hp. unfold _mm_store_ps. rewrite Hp. destruct m as [h t].
  unfold store, record. cbn [mem trace]. rewrite <- !app_assoc. reflexivity.
Qed.

Lemma sse4_1_step_aligned (power n1 : float) (f : frame) :
  aligned (aPtr f) = true -> aligned (cPtr f) = true ->
  sse4_1_step powf4_lane (_mm_set_ps1 power) _mm_setzero_ps (_mm_set_ps1 n1)
    (_mm_set_ps1 F_ONE) f
  = Done (batch_frame (sse4_1_lane n1 power) sse4_1_base (_mm_set_ps1 power) f).
Proof.
  intros Ha Hc. unfold sse4_1_step.
  rewrite (_mm_load_ps_aligned _ _ Ha). cbn [bind].
  unfold call_powf4, record. cbn [mem trace].
  rewrite (_mm_store_ps_aligned _ _ _ Hc). cbn [bind mem trace].
  unfold batch_frame. rewrite <- !app_assoc. reflexivity.
Qed.

Lemma sse_step_aligned (power n1 : float) (f : frame) :
  aligned (aPtr f) = true -> aligned (cPtr f) = true ->
  sse_step powf4_lane (_mm_set_ps1 power) _mm_setzero_ps (_mm_set_ps1 n1)
    (_mm_set_ps1 F_ONE) f
  = Done (batch_frame (sse_lane n1 power) sse_base (_mm_set_ps1 power) f).
Proof.
  intros Ha Hc. unfold sse_step.
  rewrite (_mm_load_ps_aligned _ _ Ha). cbn [bind].
  unfold call_powf4, record. cbn [mem trace].
  rewrite (_mm_store_ps_aligned _ _ _ Hc). cbn [bind mem trace].
  unfold batch_frame. rewrite <- !app_assoc. reflexivity.
Qed.

(** *** The lanes of the batch loop *)

Lemma sse4_1_base_eq (x : float) :
  sse4_1_base x = if f_lt x F_ZERO then f_abs x else x.
Proof.
  unfold sse4_1_base. rewrite blendv_cmplt.
  destruct (f_lt x F_ZERO) eqn:Hx; [apply f_sub_zero_negative, Hx | reflexivity].
Qed.

Lemma sse4_1_lane_eq (n1 power x : float) :
  sse4_1_lane n1 power x
  = f_mul (if f_lt x F_ZERO then n1 else F_ONE)
          (powf4_lane (if f_lt x F_ZERO then f_abs x else x) power).
Proof.
  unfold sse4_1_lane. rewrite blendv_cmplt, sse4_1_base_eq. reflexivity.
Qed.

Lemma sse_base_eq (x : float) : sse_base x = sse4_1_base x.
Proof. unfold sse_base, sse4_1_base. rewrite select_is_blendv. reflexivity. Qed.

Lemma sse_lane_eq (n1 power x : float) :
  sse_lane n1 power x = sse4_1_lane n1 power x.
Proof.
  unfold sse_lane, sse4_1_lane. rewrite select_is_blendv, sse_base_eq.
  reflexivity.
Qed.

(** The two batch bodies do the same to every frame, aligned or not. *)
Lemma sse_step_eq (power n1 : float) (f : frame) :
  sse_step powf4_lane (_mm_set_ps1 power) _mm_setzero_ps (_mm_set_ps1 n1)
    (_mm_set_ps1 F_ONE) f
  = sse4_1_step powf4_lane (_mm_set_ps1 power) _mm_setzero_ps
      (_mm_set_ps1 n1) (_mm_set_ps1 F_ONE) f.
Proof.
  destruct (aligned (aPtr f)) eqn:Ha.
  - destruct (aligned (cPtr f)) eqn:Hc.
    + rewrite sse_step_aligned, sse4_1_step_aligned by assumption.
      unfold batch_frame. rewrite !sse_lane_eq, !sse_base_eq. reflexivity.
    + unfold sse_step, sse4_1_step.
      rewrite (_mm_load_ps_aligned _ _ Ha). cbn [bind].
      unfold call_powf4, _mm_store_ps. rewrite Hc. reflexivity.
  - unfold sse_step, sse4_1_step, _mm_load_ps. rewrite Ha. reflexivity.
Qed.

End Steps.

(** ** The two phases of a call *)

Section Phases.

Variable powf : float -> float -> float.

Variables (c a : addr) (n : Z).

(** The scalar loop, entered at index [k0] with memory [h1] and trace [t1],
    when [number] is [k]. *)
Definition scalar_inv (power : float) (k0 : Z) (h1 : addr -> float)
    (t1 : list event) (k : Z) (f : frame) : Prop :=
  k0 <= k <= n
  /\ word.unsigned (number f) = k
  /\ cPtr f = c + k
  /\ aPtr f = a + k
  /\ accesses (trace (mach f))
     = accesses t1
       ++ flat_map (scalar_access c a) (indices k0 (Z.to_nat (k - k0)))
  /\ calls (trace (mach f)) = calls t1 ++ repeat R_powf (Z.to_nat (k - k0))
  /\ (exists u, trace (mach f) = t1 ++ u)
  /\ (forward_safe c a n ->
      image (fun x => powf x power) c a k0 k h1 (mem (mach f))).

Lemma scalar_inv_start (power : float) (k0 : Z) (f : frame) :
  0 <= k0 <= n -> word.unsigned (number f) = k0 ->
  cPtr f = c + k0 -> aPtr f = a + k0 ->
  scalar_inv power k0 (mem (mach f)) (trace (mach f)) k0 f.
Proof.
  intros Hk Hn Hc Ha. unfold scalar_inv.
  rewrite Z.sub_diag. cbn [Z.to_nat indices seq map flat_map repeat].
  rewrite !app_nil_r. repeat split; try assumption; try lia.
  { exists []. rewrite app_nil_r. reflexivity. }
  intros _ q.
  destruct (Z.leb_spec (c + k0) q), (Z.ltb_spec q (c + k0));
    cbn [andb]; try reflexivity; lia.
Qed.

Lemma scalar_inv_step (power : float) (k0 : Z) (h1 : addr -> float)
    (t1 : list event) (k : Z) (f : frame) :
  0 <= k0 -> n < 2 ^ 32 ->
  scalar_inv power k0 h1 t1 k f -> k < n ->
  scalar_inv power k0 h1 t1 (k + 1) (scalar_step powf power f).
Proof.
  intros Hk0 Hn (Hk & Hnum & Hc & Ha & Hacc & Hcalls & (u & Hpre) & Hmem) Hlt.
  destruct f as [num cp ap [h t]]. cbn [number cPtr aPtr mach mem trace] in *.
  subst cp ap.
  unfold scalar_inv, scalar_step, load, call_powf, store, record.
  cbn [number cPtr aPtr mach mem trace].
  repeat split; try lia.
  - rewrite unsigned_u32_incr; lia.
  - rewrite !accesses_app, Hacc, indices_next, flat_map_app by lia.
    rewrite <- !app_assoc. reflexivity.
  - rewrite !calls_app, Hcalls, repeat_next by lia.
    rewrite <- !app_assoc. reflexivity.
  - rewrite Hpre, <- !app_assoc. eexists. reflexivity.
  - intros Hsafe q. specialize (Hmem Hsafe). unfold poke.
    assert (Hread : h (a + k) = h1 (a + k)).
    { rewrite Hmem.
      destruct (Z.leb_spec (c + k0) (a + k)), (Z.ltb_spec (a + k) (c + k));
        cbn [andb]; try reflexivity.
      exfalso. apply (Hsafe k (a + k - c)); lia. }
    destruct (Z.eqb_spec q (c + k)) as [->|Hq].
    + destruct (Z.leb_spec (c + k0) (c + k)), (Z.ltb_spec (c + k) (c + (k + 1)));
        cbn [andb]; try lia.
      rewrite Hread. do 2 f_equal. lia.
    + rewrite Hmem.
      destruct (Z.leb_spec (c + k0) q), (Z.ltb_spec q (c + k)),
        (Z.ltb_spec q (c + (k + 1))); cbn [andb]; try reflexivity; lia.
Qed.

(** The scalar loop from index [k0] to [n]. *)
Lemma scalar_phase (power : float) (N : u32) (k0 : Z) (f : frame) :
  word.unsigned N = n -> 0 <= k0 <= n ->
  word.unsigned (number f) = k0 -> cPtr f = c + k0 -> aPtr f = a + k0 ->
  exists f',
    scalar_loop powf (fuel_of N) power N f = Done f'
    /\ scalar_inv power k0 (mem (mach f)) (trace (mach f)) n f'.
Proof.
  intros HN Hk Hnum Hc Ha.
  pose proof (u32_range N) as HR. rewrite HN in HR.
  rewrite scalar_loop_as_batch.
  destruct (batch_loop_invariant
              (scalar_inv power k0 (mem (mach f)) (trace (mach f)))
              (fun f => Done (scalar_step powf power f)) N)
    with (r := Z.to_nat (n - k0)) (fuel := fuel_of N) (k := k0) (f := f)
    as (f' & Hrun & Hinv).
  - intros k g Hg. apply Hg.
  - intros k g Hg Hlt. eexists. split; [reflexivity|].
    apply scalar_inv_step; try assumption; lia.
  - apply scalar_inv_start; assumption.
  - lia.
  - unfold fuel_of. lia.
  - exists f'. rewrite HN in Hinv. split; assumption.
Qed.

(** The batch loop of [Q] batches that stores [g x] for an input lane [x],
    entered with memory [h0] and trace [t0], when [number] is [k]. *)
Definition batch_inv (g : float -> float) (Q : Z) (h0 : addr -> float)
    (t0 : list event) (k : Z) (f : frame) : Prop :=
  0 <= k <= Q
  /\ word.unsigned (number f) = k
  /\ cPtr f = c + 4 * k
  /\ aPtr f = a + 4 * k
  /\ accesses (trace (mach f))
     = accesses t0 ++ flat_map (batch_access c a) (indices 0 (Z.to_nat k))
  /\ calls (trace (mach f)) = calls t0 ++ repeat R_powf4 (Z.to_nat k)
  /\ (exists u, trace (mach f) = t0 ++ u)
  /\ (forward_safe c a n -> image g c a 0 (4 * k) h0 (mem (mach f))).

Lemma batch_inv_start (g : float -> float) (Q : Z) (f : frame) :
  0 <= Q -> word.unsigned (number f) = 0 -> cPtr f = c -> aPtr f = a ->
  batch_inv g Q (mem (mach f)) (trace (mach f)) 0 f.
Proof.
  intros HQ Hn Hc Ha. unfold batch_inv.
  cbn [Z.to_nat indices seq map flat_map repeat].
  rewrite !app_nil_r. repeat split; try assumption; try lia.
  { exists []. rewrite app_nil_r. reflexivity. }
  intros _ q.
  destruct (Z.leb_spec (c + 0) q), (Z.ltb_spec q (c + 4 * 0));
    cbn [andb]; try reflexivity; lia.
Qed.

Lemma batch_inv_step (g b : float -> float) (vPower : __m128) (Q : Z)
    (h0 : addr -> float) (t0 : list event) (k : Z) (f : frame) :
  4 * Q <= n -> n < 2 ^ 32 ->
  batch_inv g Q h0 t0 k f -> k < Q ->
  batch_inv g Q h0 t0 (k + 1) (batch_frame g b vPower f).
Proof.
  intros HQ Hn (Hk & Hnum & Hc & Ha & Hacc & Hcalls & (u & Hpre) & Hmem) Hlt.
  destruct f as [num cp ap [h t]]. cbn [number cPtr aPtr mach mem trace] in *.
  subst cp ap.
  unfold batch_inv, batch_frame. cbn [number cPtr aPtr mach mem trace].
  repeat split; try lia.
  - rewrite unsigned_u32_incr; lia.
  - rewrite !accesses_app, Hacc.
    replace (Z.to_nat (k + 1)) with (Z.to_nat (k + 1 - 0)) by (f_equal; lia).
    rewrite indices_next, flat_map_app, Z.sub_0_r by lia.
    rewrite <- !app_assoc. reflexivity.
  - rewrite !calls_app, Hcalls.
    replace (Z.to_nat (k + 1)) with (Z.to_nat (k + 1 - 0)) by (f_equal; lia).
    rewrite (repeat_next R_powf4 0 k), Z.sub_0_r by lia.
    rewrite <- !app_assoc. reflexivity.
  - rewrite Hpre, <- !app_assoc. eexists. reflexivity.
  - intros Hsafe q. specialize (Hmem Hsafe). unfold poke.
    assert (Hread : forall j, 0 <= j < 4 -> h (a + 4 * k + j) = h0 (a + 4 * k + j)).
    { intros j Hj. rewrite Hmem.
      destruct (Z.leb_spec (c + 0) (a + 4 * k + j)),
        (Z.ltb_spec (a + 4 * k + j) (c + 4 * k)); cbn [andb]; try reflexivity.
      exfalso. apply (Hsafe (4 * k + j) (a + 4 * k + j - c)); lia. }
    pose proof (Hread 0 ltac:(lia)) as H0. rewrite Z.add_0_r in H0.
    pose proof (Hread 1 ltac:(lia)) as H1.
    pose proof (Hread 2 ltac:(lia)) as H2.
    pose proof (Hread 3 ltac:(lia)) as H3.
    destruct (Z.eqb_spec q (c + 4 * k + 3)) as [->|Hq3].
    { destruct (Z.leb_spec (c + 0) (c + 4 * k + 3)),
        (Z.ltb_spec (c + 4 * k + 3) (c + 4 * (k + 1))); cbn [andb]; try lia.
      rewrite H3. do 2 f_equal. lia. }
    destruct (Z.eqb_spec q (c + 4 * k + 2)) as [->|Hq2].
    { destruct (Z.leb_spec (c + 0) (c + 4 * k + 2)),
        (Z.ltb_spec (c + 4 * k + 2) (c + 4 * (k + 1))); cbn [andb]; try lia.
      rewrite H2. do 2 f_equal. lia. }
    destruct (Z.eqb_spec q (c + 4 * k + 1)) as [->|Hq1].
    { destruct (Z.leb_spec (c + 0) (c + 4 * k + 1)),
        (Z.ltb_spec (c + 4 * k + 1) (c + 4 * (k + 1))); cbn [andb]; try lia.
      rewrite H1. do 2 f_equal. lia. }
    destruct (Z.eqb_spec q (c + 4 * k)) as [->|Hq0].
    { destruct (Z.leb_spec (c + 0) (c + 4 * k)),
        (Z.ltb_spec (c + 4 * k) (c + 4 * (k + 1))); cbn [andb]; try lia.
      rewrite H0. do 2 f_equal. lia. }
    rewrite Hmem.
    destruct (Z.leb_spec (c + 0) q), (Z.ltb_spec q (c + 4 * k)),
      (Z.ltb_spec q (c + 4 * (k + 1))); cbn [andb]; try reflexivity; lia.
Qed.

Lemma aligned_shift (p k : Z) : aligned p = true -> aligned (p + 4 * k) = true.
Proof.
  unfold aligned. rewrite !Z.eqb_eq. intros H.
  Z.div_mod_to_equations. lia.
Qed.

(** The batch loop over [Q] batches, for a body that behaves as
    [batch_frame] on aligned pointers. *)
Lemma batch_phase (g b : float -> float) (vPower : __m128)
    (step : frame -> outcome frame) (QN : u32) (fuel : nat) (f : frame) :
  (forall f, aligned (aPtr f) = true -> aligned (cPtr f) = true ->
             step f = Done (batch_frame g b vPower f)) ->
  aligned a = true -> aligned c = true ->
  4 * word.unsigned QN <= n -> n < 2 ^ 32 ->
  (Z.to_nat (word.unsigned QN) <= fuel)%nat ->
  word.unsigned (number f) = 0 -> cPtr f = c -> aPtr f = a ->
  exists f',
    batch_loop step fuel QN f = Done f'
    /\ batch_inv g (word.unsigned QN) (mem (mach f)) (trace (mach f))
         (word.unsigned QN) f'.
Proof.
  intros Hstep Hal_a Hal_c HQ Hn Hfuel Hnum Hc Ha.
  pose proof (u32_range QN) as HR.
  apply (batch_loop_invariant
           (batch_inv g (word.unsigned QN) (mem (mach f)) (trace (mach f)))
           step QN)
    with (r := Z.to_nat (word.unsigned QN)) (k := 0).
  - intros k f0 Hf0. apply Hf0.
  - intros k f0 Hf0 Hlt. eexists. split.
    + apply Hstep.
      * destruct Hf0 as (_ & _ & _ & Hf0 & _). rewrite Hf0.
        apply aligned_shift, Hal_a.
      * destruct Hf0 as (_ & _ & Hf0 & _). rewrite Hf0.
        apply aligned_shift, Hal_c.
    + apply batch_inv_step; assumption.
  - apply batch_inv_start; try assumption; lia.
  - lia.
  - exact Hfuel.
Qed.

End Phases.

(** ** Whole calls *)

Section Calls.

Variable powf : float -> float -> float.

Lemma unsigned_quarter (N : u32) :
  word.unsigned (word.divu N (u32_lit 4)) = word.unsigned N / 4.
Proof.
  rewrite word.unsigned_divu_nowrap; unfold u32_lit;
    rewrite word.unsigned_of_Z; unfold word.wrap;
    change (4 mod 2 ^ 32) with 4; [reflexivity | lia].
Qed.

Lemma unsigned_quarter_times_4 (N : u32) :
  word.unsigned (word.mul (word.divu N (u32_lit 4)) (u32_lit 4))
  = 4 * (word.unsigned N / 4).
Proof.
  rewrite word.unsigned_mul, unsigned_quarter. unfold u32_lit.
  rewrite word.unsigned_of_Z. unfold word.wrap.
  change (4 mod 2 ^ 32) with 4.
  pose proof (u32_range N) as HR.
  rewrite Z.mod_small; [lia|].
  change (2 ^ 32) with 4294967296 in *.
  Z.div_mod_to_equations. lia.
Qed.

(** What a call that runs the scalar loop over all [n] elements does. *)
Definition scalar_effect (c a : addr) (power : float) (n : Z)
    (m m' : machine) : Prop :=
  accesses (trace m')
  = accesses (trace m) ++ flat_map (scalar_access c a) (indices 0 (Z.to_nat n))
  /\ calls (trace m') = calls (trace m) ++ repeat R_powf (Z.to_nat n)
  /\ (exists u, trace m' = trace m ++ u)
  /\ (forward_safe c a n ->
      image (fun x => powf x power) c a 0 n (mem m) (mem m')).

Lemma scalar_kernel_runs (c a : addr) (power : float) (N : u32) (m : machine) :
  exists m',
    volk_32f_s32f_power_32f_generic powf c a power N m = Done m'
    /\ scalar_effect c a power (word.unsigned N) m m'.
Proof.
  unfold volk_32f_s32f_power_32f_generic.
  pose proof (u32_range N) as HR.
  destruct (scalar_phase powf c a (word.unsigned N) power N 0
              (mk_frame (u32_lit 0) c a m)) as (f' & Hrun & Hinv);
    cbn [number cPtr aPtr mach]; try reflexivity; try lia.
  rewrite Hrun. cbn [bind]. exists (mach f'). split; [reflexivity|].
  destruct Hinv as (_ & _ & _ & _ & Hacc & Hcalls & Hpre & Hmem).
  cbn [mach] in *. rewrite Z.sub_0_r in *.
  repeat split; assumption.
Qed.

(** What a call of an SSE variant built with simdmath does, [g] being what
    its batch loop stores for an input lane. *)
Definition simd_effect (g : float -> float) (c a : addr) (power : float)
    (n : Z) (m m' : machine) : Prop :=
  accesses (trace m')
  = accesses (trace m)
    ++ simd_accesses c a n
  /\ calls (trace m')
     = calls (trace m)
       ++ R_powf :: repeat R_powf4 (Z.to_nat (n / 4))
       ++ repeat R_powf (Z.to_nat (n mod 4))
  /\ (exists u, trace m' = trace m ++ Call_powf F_NEG_ONE power :: u)
  /\ (forward_safe c a n ->
      forall q,
        mem m' q
        = if (c <=? q) && (q <? c + 4 * (n / 4)) then g (mem m (a + (q - c)))
          else if (c + 4 * (n / 4) <=? q) && (q <? c + n)
               then powf (mem m (a + (q - c))) power
               else mem m q).

Lemma simd_kernel_runs
    (step : __m128 -> __m128 -> __m128 -> __m128 -> frame -> outcome frame)
    (g : float -> float -> float) (b : float -> float)
    (c a : addr) (power : float) (N : u32) (m : machine) :
  (forall n1 f, aligned (aPtr f) = true -> aligned (cPtr f) = true ->
     step (_mm_set_ps1 power) _mm_setzero_ps (_mm_set_ps1 n1)
          (_mm_set_ps1 F_ONE) f
     = Done (batch_frame (g n1) b (_mm_set_ps1 power) f)) ->
  aligned a = true -> aligned c = true ->
  exists m',
    (f <- simd_part powf step power N (mk_frame (u32_lit 0) c a m) ;;
     f <- scalar_loop powf (fuel_of N) power N f ;;
     Done (mach f)) = Done m'
    /\ simd_effect (g (powf F_NEG_ONE power)) c a power (word.unsigned N) m m'.
Proof.
  intros Hstep Hal_a Hal_c.
  pose proof (u32_range N) as HR.
  set (n := word.unsigned N) in *.
  assert (Hdiv : 0 <= 4 * (n / 4) <= n /\ n = 4 * (n / 4) + n mod 4
                 /\ 0 <= n mod 4 < 4 /\ 0 <= n / 4)
    by (Z.div_mod_to_equations; lia).
  unfold simd_part, call_powf. cbn [number cPtr aPtr mach].
  destruct (batch_phase c a n (g (powf F_NEG_ONE power)) b (_mm_set_ps1 power)
              (step (_mm_set_ps1 power) _mm_setzero_ps
                    (_mm_set_ps1 (powf F_NEG_ONE power)) (_mm_set_ps1 F_ONE))
              (word.divu N (u32_lit 4)) (fuel_of N)
              (mk_frame (u32_lit 0) c a (record (Call_powf F_NEG_ONE power) m)))
    as (f1 & Hrun1 & Hinv1);
    try assumption; try reflexivity; try lia;
    try (rewrite unsigned_quarter; fold n; unfold fuel_of; lia).
  { intros f. apply Hstep. }
  rewrite Hrun1. cbn [bind].
  rewrite unsigned_quarter in Hinv1. fold n in Hinv1.
  destruct Hinv1 as (_ & _ & Hc1 & Ha1 & Hacc1 & Hcalls1 & (u1 & Hpre1) & Hmem1).
  cbn [mach mem trace record] in *.
  destruct (scalar_phase powf c a n power N (4 * (n / 4))
              (mk_frame (word.mul (word.divu N (u32_lit 4)) (u32_lit 4))
                        (cPtr f1) (aPtr f1) (mach f1)))
    as (f2 & Hrun2 & Hinv2);
    cbn [number cPtr aPtr mach]; try assumption; try reflexivity; try lia.
  { apply unsigned_quarter_times_4. }
  rewrite Hrun2. cbn [bind]. exists (mach f2). split; [reflexivity|].
  destruct Hinv2 as (_ & _ & _ & _ & Hacc2 & Hcalls2 & (u2 & Hpre2) & Hmem2).
  cbn [mach] in *.
  replace (n - 4 * (n / 4)) with (n mod 4) in * by lia.
  unfold simd_effect. repeat split.
  - unfold simd_accesses.
    rewrite Hacc2, Hacc1, accesses_app, <- !app_assoc. cbn [accesses app].
    reflexivity.
  - rewrite Hcalls2, Hcalls1, calls_app, <- !app_assoc. reflexivity.
  - rewrite Hpre2, Hpre1, <- !app_assoc. eexists. reflexivity.
  - intros Hsafe q. rewrite (Hmem2 Hsafe).
    specialize (Hmem1 Hsafe).
    destruct (Z.leb_spec (c + 4 * (n / 4)) q), (Z.ltb_spec q (c + n));
      cbn [andb].
    + rewrite Hmem1.
      destruct (Z.leb_spec (c + 0) (a + (q - c))),
        (Z.ltb_spec (a + (q - c)) (c + 4 * (n / 4))); cbn [andb].
      * exfalso. apply (Hsafe (q - c) (a + (q - c) - c)); lia.
      * destruct (Z.leb_spec c q), (Z.ltb_spec q (c + 4 * (n / 4)));
          cbn [andb]; try reflexivity; lia.
      * destruct (Z.leb_spec c q), (Z.ltb_spec q (c + 4 * (n / 4)));
          cbn [andb]; try reflexivity; lia.
      * destruct (Z.leb_spec c q), (Z.ltb_spec q (c + 4 * (n / 4)));
          cbn [andb]; try reflexivity; lia.
    + rewrite Hmem1.
      destruct (Z.leb_spec (c + 0) q), (Z.ltb_spec q (c + 4 * (n / 4))),
        (Z.leb_spec c q); cbn [andb]; try reflexivity; lia.
    + rewrite Hmem1.
      destruct (Z.leb_spec (c + 0) q), (Z.ltb_spec q (c + 4 * (n / 4))),
        (Z.leb_spec c q); cbn [andb]; try reflexivity; lia.
    + rewrite Hmem1.
      destruct (Z.leb_spec (c + 0) q), (Z.ltb_spec q (c + 4 * (n / 4))),
        (Z.leb_spec c q); cbn [andb]; try reflexivity; lia.
Qed.

End Calls.

(** ** Every variant in every build *)

Section Variants.

Variable powf : float -> float -> float.
Variable powf4_lane : float -> float -> float.

(** What the batch loop stores for an input lane [x]. *)
Definition batch_lane (power x : float) : float :=
  f_mul (if f_lt x F_ZERO then powf F_NEG_ONE power else F_ONE)
        (powf4_lane (if f_lt x F_ZERO then f_abs x else x) power).

(** The value a call leaves at index [i] of the output when the input holds
    [x] there. *)
Definition expected (simdmath : bool) (v : variant) (power : float) (n i : Z)
    (x : float) : float :=
  if is_simd simdmath v && (i <? 4 * (n / 4)) then batch_lane power x
  else powf x power.

(** The accesses of a call, in order. *)
Definition expected_accesses (simdmath : bool) (v : variant) (c a : addr)
    (n : Z) : list access :=
  if is_simd simdmath v then simd_accesses c a n
  else flat_map (scalar_access c a) (indices 0 (Z.to_nat n)).

(** An SSE variant built with simdmath, on aligned buffers. *)
Lemma simd_run_effect (v : variant) (c a : addr) (power : float) (N : u32)
    (m : machine) :
  v <> GENERIC -> aligned a = true -> aligned c = true ->
  exists m',
    run powf powf4_lane true v c a power N m = Done m'
    /\ simd_effect powf (batch_lane power) c a power (word.unsigned N) m m'.
Proof.
  intros Hv Hal_a Hal_c.
  assert (Hrun : exists m',
             run powf powf4_lane true v c a power N m = Done m'
             /\ simd_effect powf
                  (sse4_1_lane powf4_lane (powf F_NEG_ONE power) power)
                  c a power (word.unsigned N) m m').
  { destruct v; [| |congruence].
    - apply (simd_kernel_runs powf (sse4_1_step powf4_lane)
               (fun n1 => sse4_1_lane powf4_lane n1 power) sse4_1_base);
        try assumption.
      intros n1 f. apply sse4_1_step_aligned.
    - destruct (simd_kernel_runs powf (sse_step powf4_lane)
                  (fun n1 => sse_lane powf4_lane n1 power) sse_base
                  c a power N m) as (m' & Hm' & He); try assumption.
      { intros n1 f. apply sse_step_aligned. }
      exists m'. split; [exact Hm'|].
      destruct He as (He1 & He2 & He3 & He4). repeat split; try assumption.
      intros Hsafe q. rewrite (He4 Hsafe), sse_lane_eq. reflexivity. }
  destruct Hrun as (m' & Hm' & Hacc & Hcalls & Hpre & Hmem).
  exists m'. split; [exact Hm'|]. repeat split; try assumption.
  intros Hsafe q. rewrite (Hmem Hsafe), sse4_1_lane_eq. reflexivity.
Qed.

Lemma is_simd_true (simdmath : bool) (v : variant) :
  is_simd simdmath v = true -> simdmath = true /\ v <> GENERIC.
Proof. destruct simdmath, v; cbn; intros H; split; congruence. Qed.

Lemma run_effect (simdmath : bool) (v : variant) (c a : addr) (power : float)
    (N : u32) (m : machine) :
  precondition simdmath v c a ->
  exists m',
    run powf powf4_lane simdmath v c a power N m = Done m'
    /\ accesses (trace m')
       = accesses (trace m)
         ++ expected_accesses simdmath v c a (word.unsigned N)
    /\ (forward_safe c a (word.unsigned N) ->
        forall q,
          mem m' q
          = if (c <=? q) && (q <? c + word.unsigned N)
            then expected simdmath v power (word.unsigned N) (q - c)
                   (mem m (a + (q - c)))
            else mem m q).
Proof.
  intros Hpre.
  pose proof (u32_range N) as HR.
  set (n := word.unsigned N) in *.
  assert (Hdiv : 0 <= 4 * (n / 4) <= n) by (Z.div_mod_to_equations; lia).
  destruct (is_simd simdmath v) eqn:Hs.
  - (* the batch loop runs *)
    destruct (Hpre Hs) as (Hal_a & Hal_c).
    destruct (is_simd_true _ _ Hs) as (-> & Hv).
    destruct (simd_run_effect v c a power N m Hv Hal_a Hal_c)
      as (m' & Hm' & Hacc & _ & _ & Hmem).
    exists m'. split; [exact Hm'|]. split.
    + unfold expected_accesses. rewrite Hs. exact Hacc.
    + intros Hsafe q. rewrite (Hmem Hsafe). unfold expected. rewrite Hs.
      cbn [andb]. fold n.
      destruct (Z.leb_spec c q), (Z.ltb_spec q (c + 4 * (n / 4))),
        (Z.leb_spec (c + 4 * (n / 4)) q), (Z.ltb_spec q (c + n)),
        (Z.ltb_spec (q - c) (4 * (n / 4))); cbn [andb]; try reflexivity; lia.
  - (* only the scalar loop runs *)
    assert (Hrun : run powf powf4_lane simdmath v c a power N m
                   = volk_32f_s32f_power_32f_generic powf c a power N m).
    { destruct simdmath, v; try discriminate; reflexivity. }
    destruct (scalar_kernel_runs powf c a power N m)
      as (m' & Hm' & Hacc & _ & _ & Hmem).
    exists m'. rewrite Hrun. split; [exact Hm'|]. split.
    + unfold expected_accesses. rewrite Hs. exact Hacc.
    + intros Hsafe q. rewrite (Hmem Hsafe). unfold expected. rewrite Hs.
      cbn [andb]. fold n.
      destruct (Z.leb_spec (c + 0) q), (Z.leb_spec c q), (Z.ltb_spec q (c + n));
        cbn [andb]; try reflexivity; lia.
Qed.

(** The value an SSE variant built with simdmath leaves for an index that
    falls in a batch, and the value the generic variant leaves anywhere. *)
Lemma simd_batch_values (v : variant) (c a : addr) (power : float) (N : u32)
    (m : machine) :
  v <> GENERIC -> aligned a = true -> aligned c = true ->
  forward_safe c a (word.unsigned N) ->
  exists m' u,
    run powf powf4_lane true v c a power N m = Done m'
    /\ trace m' = trace m ++ Call_powf F_NEG_ONE power :: u
    /\ calls u
       = repeat R_powf4 (Z.to_nat (word.unsigned N / 4))
         ++ repeat R_powf (Z.to_nat (word.unsigned N mod 4))
    /\ forall i, 0 <= i < 4 * (word.unsigned N / 4) ->
         mem m' (c + i) = batch_lane power (mem m (a + i)).
Proof.
  intros Hv Hal_a Hal_c Hsafe.
  destruct (simd_run_effect v c a power N m Hv Hal_a Hal_c)
    as (m' & Hrun & _ & Hcalls & (u & Hpre) & Hmem).
  specialize (Hmem Hsafe).
  exists m', u. split; [exact Hrun|]. split; [exact Hpre|]. split.
  - rewrite Hpre, calls_app in Hcalls. cbn [calls] in Hcalls.
    apply app_inv_head in Hcalls. injection Hcalls as Hcalls. exact Hcalls.
  - intros i Hi. rewrite Hmem.
    destruct (Z.leb_spec c (c + i)),
      (Z.ltb_spec (c + i) (c + 4 * (word.unsigned N / 4)));
      cbn [andb]; try lia.
    do 2 f_equal. lia.
Qed.

Lemma generic_values (c a : addr) (power : float) (N : u32) (m : machine) :
  forward_safe c a (word.unsigned N) ->
  exists m',
    volk_32f_s32f_power_32f_generic powf c a power N m = Done m'
    /\ forall i, 0 <= i < word.unsigned N ->
         mem m' (c + i) = powf (mem m (a + i)) power.
Proof.
  intros Hsafe.
  destruct (scalar_kernel_runs powf c a power N m)
    as (m' & Hrun & _ & _ & _ & Hmem).
  exists m'. split; [exact Hrun|].
  intros i Hi. rewrite (Hmem Hsafe).
  destruct (Z.leb_spec (c + 0) (c + i)),
    (Z.ltb_spec (c + i) (c + word.unsigned N)); cbn [andb]; try lia.
  do 3 f_equal. lia.
Qed.

End Variants.

(** * The properties of the kernel *)

Section Properties.

Variable powf : float -> float -> float.
Variable powf4_lane : float -> float -> float.

(** C1. The generic variant finishes on every input and, for every index
    [i] below [num_points], leaves [powf (input[i], power)] at [output[i]];
    it reads and writes the elements one at a time in the order of the
    indices 0, 1, ..., and calls [powf] once per element. The values hold
    when no element is overwritten before it is read ([forward_safe]), as
    with disjoint buffers or a call in place. *)
Theorem generic_writes_powf_elementwise (cVector aVector : addr)
    (power : float) (num_points : u32) (m : machine) :
  forward_safe cVector aVector (word.unsigned num_points) ->
  exists m',
    volk_32f_s32f_power_32f_generic powf cVector aVector power num_points m
    = Done m'
    /\ (forall i, 0 <= i < word.unsigned num_points ->
          mem m' (cVector + i) = powf (mem m (aVector + i)) power)
    /\ accesses (trace m')
       = accesses (trace m)
         ++ flat_map (scalar_access cVector aVector)
              (indices 0 (Z.to_nat (word.unsigned num_points)))
    /\ calls (trace m')
       = calls (trace m) ++ repeat R_powf (Z.to_nat (word.unsigned num_points)).
Proof.
  intros Hsafe.
  destruct (scalar_kernel_runs powf cVector aVector power num_points m)
    as (m' & Hrun & Hacc & Hcalls & _ & Hmem).
  exists m'. repeat split; try assumption.
  intros i Hi. rewrite (Hmem Hsafe).
  destruct (Z.leb_spec (cVector + 0) (cVector + i)),
    (Z.ltb_spec (cVector + i) (cVector + word.unsigned num_points));
    cbn [andb]; try lia.
  do 3 f_equal. lia.
Qed.

(** C5. Built without simdmath, the SSE4.1 and the SSE variant are the
    generic variant: the same outcome on every input, memory and trace
    included, and that outcome is the scalar loop run over all
    [num_points] elements, one call of [powf] each. *)
Theorem sse_variants_without_simdmath_are_generic (cVector aVector : addr)
    (power : float) (num_points : u32) (m : machine) :
  volk_32f_s32f_power_32f_a_sse4_1 powf powf4_lane false cVector aVector
    power num_points m
  = volk_32f_s32f_power_32f_generic powf cVector aVector power num_points m
  /\ volk_32f_s32f_power_32f_a_sse powf powf4_lane false cVector aVector
       power num_points m
     = volk_32f_s32f_power_32f_generic powf cVector aVector power num_points m
  /\ exists m',
       volk_32f_s32f_power_32f_generic powf cVector aVector power num_points m
       = Done m'
       /\ calls (trace m')
          = calls (trace m)
            ++ repeat R_powf (Z.to_nat (word.unsigned num_points)).
Proof.
  split; [reflexivity|]. split; [reflexivity|].
  destruct (scalar_kernel_runs powf cVector aVector power num_points m)
    as (m' & Hrun & _ & Hcalls & _).
  exists m'. split; assumption.
Qed.

(** C7. A call with [num_points = 0] is a no-op in every variant and both
    builds: it finishes, memory is what it was, and the trace holds no new
    load and no new store. *)
Theorem zero_length_is_noop (simdmath : bool) (v : variant)
    (cVector aVector : addr) (power : float) (m : machine) :
  exists m',
    run powf powf4_lane simdmath v cVector aVector power (u32_lit 0) m = Done m'
    /\ mem m' = mem m
    /\ accesses (trace m') = accesses (trace m).
Proof.
  destruct simdmath, v; eexists; (split; [reflexivity|]);
    cbn [mem trace record mach]; split; try reflexivity;
    rewrite ?accesses_app, ?app_nil_r; reflexivity.
Qed.

(** Loops whose bodies agree on every frame agree. *)
Lemma batch_loop_ext (step step' : frame -> outcome frame) (fuel : nat)
    (Q : u32) (f : frame) :
  (forall f, step f = step' f) ->
  batch_loop step fuel Q f = batch_loop step' fuel Q f.
Proof.
  intros Hext. revert f. induction fuel as [|fuel IH]; intros f;
    cbn [batch_loop]; [reflexivity|].
  rewrite Hext. destruct (step' f) as [f'| |]; cbn [bind];
    [rewrite IH|..]; reflexivity.
Qed.

(** C8. The SSE variant and the SSE4.1 variant have the same outcome on
    every input and in both builds, memory and trace included; and on a
    mask made by [_mm_cmplt_ps] the and/andnot/or selection of the SSE
    variant is the blend of the SSE4.1 variant. *)
Theorem sse_equals_sse4_1 (simdmath : bool) (cVector aVector : addr)
    (power : float) (num_points : u32) (m : machine) :
  volk_32f_s32f_power_32f_a_sse powf powf4_lane simdmath cVector aVector
    power num_points m
  = volk_32f_s32f_power_32f_a_sse4_1 powf powf4_lane simdmath cVector aVector
      power num_points m
  /\ forall x y a b : __m128,
       _mm_or_ps (_mm_andnot_ps (_mm_cmplt_ps x y) a)
                 (_mm_and_ps (_mm_cmplt_ps x y) b)
       = _mm_blendv_ps a b (_mm_cmplt_ps x y).
Proof.
  split.
  - unfold volk_32f_s32f_power_32f_a_sse, volk_32f_s32f_power_32f_a_sse4_1.
    destruct simdmath; [|reflexivity].
    unfold simd_part. cbn [call_powf fst snd].
    rewrite (batch_loop_ext _
               (sse4_1_step powf4_lane (_mm_set_ps1 power) _mm_setzero_ps
                  (_mm_set_ps1 (powf F_NEG_ONE power)) (_mm_set_ps1 F_ONE)));
      [reflexivity|].
    intros f. apply sse_step_eq.
  - intros x y a b.
    unfold _mm_or_ps, _mm_andnot_ps, _mm_and_ps, _mm_blendv_ps, _mm_cmplt_ps,
      lanewise2, lanewise3.
    cbn [lane0 lane1 lane2 lane3]. rewrite !select_is_blendv. reflexivity.
Qed.


(** C6. Every variant, in both builds, on buffers that meet its alignment
    precondition, finishes, and every access it makes stays inside the
    buffers of the call: each load inside [aVector .. aVector + num_points)
    and each store inside [cVector .. cVector + num_points). *)
Theorem accesses_stay_in_bounds (simdmath : bool) (v : variant)
    (cVector aVector : addr) (power : float) (num_points : u32) (m : machine) :
  precondition simdmath v cVector aVector ->
  exists m' acc,
    run powf powf4_lane simdmath v cVector aVector power num_points m = Done m'
    /\ accesses (trace m') = accesses (trace m) ++ acc
    /\ Forall (in_bounds cVector aVector (word.unsigned num_points)) acc.
Proof.
  intros Hpre.
  destruct (run_effect powf powf4_lane simdmath v cVector aVector power
              num_points m Hpre) as (m' & Hrun & Hacc & _).
  pose proof (u32_range num_points) as HR.
  set (n := word.unsigned num_points) in *.
  assert (Hdiv : 0 <= 4 * (n / 4) <= n /\ n = 4 * (n / 4) + n mod 4
                 /\ 0 <= n mod 4 < 4 /\ 0 <= n / 4)
    by (Z.div_mod_to_equations; lia).
  exists m', (expected_accesses simdmath v cVector aVector n).
  split; [exact Hrun|]. split; [exact Hacc|].
  unfold expected_accesses, simd_accesses. destruct (is_simd simdmath v).
  - apply Forall_app. split.
    + apply batch_access_in_bounds. lia.
    + apply scalar_access_in_bounds; lia.
  - apply scalar_access_in_bounds; lia.
Qed.

(** C9. A call is determined by its inputs. Two calls of one variant, in one
    build, with the same pointers, [power] and [num_points], started in two
    machines whose input buffers hold the same elements (the rest of memory
    and the traces may differ), both finish, leave the same elements in the
    output buffer and make the same accesses; and each leaves every address
    outside the output buffer as it found it. *)
Theorem output_is_a_function_of_the_inputs (simdmath : bool) (v : variant)
    (cVector aVector : addr) (power : float) (num_points : u32)
    (m1 m2 : machine) :
  precondition simdmath v cVector aVector ->
  forward_safe cVector aVector (word.unsigned num_points) ->
  (forall i, 0 <= i < word.unsigned num_points ->
             mem m1 (aVector + i) = mem m2 (aVector + i)) ->
  exists m1' m2' acc,
    run powf powf4_lane simdmath v cVector aVector power num_points m1
    = Done m1'
    /\ run powf powf4_lane simdmath v cVector aVector power num_points m2
       = Done m2'
    /\ (forall i, 0 <= i < word.unsigned num_points ->
                  mem m1' (cVector + i) = mem m2' (cVector + i))
    /\ (forall q, ~ cVector <= q < cVector + word.unsigned num_points ->
                  mem m1' q = mem m1 q /\ mem m2' q = mem m2 q)
    /\ accesses (trace m1') = accesses (trace m1) ++ acc
    /\ accesses (trace m2') = accesses (trace m2) ++ acc.
Proof.
  intros Hpre Hsafe Hin.
  destruct (run_effect powf powf4_lane simdmath v cVector aVector power
              num_points m1 Hpre) as (m1' & Hrun1 & Hacc1 & Hmem1).
  destruct (run_effect powf powf4_lane simdmath v cVector aVector power
              num_points m2 Hpre) as (m2' & Hrun2 & Hacc2 & Hmem2).
  specialize (Hmem1 Hsafe). specialize (Hmem2 Hsafe).
  set (n := word.unsigned num_points) in *.
  exists m1', m2', (expected_accesses simdmath v cVector aVector n).
  repeat split; try assumption.
  - intros i Hi. rewrite Hmem1, Hmem2.
    destruct (Z.leb_spec cVector (cVector + i)),
      (Z.ltb_spec (cVector + i) (cVector + n)); cbn [andb]; try lia.
    replace (cVector + i - cVector) with i by lia.
    rewrite (Hin i Hi). reflexivity.
  - rewrite Hmem1.
    destruct (Z.leb_spec cVector q), (Z.ltb_spec q (cVector + n));
      cbn [andb]; try reflexivity; lia.
  - rewrite Hmem2.
    destruct (Z.leb_spec cVector q), (Z.ltb_spec q (cVector + n));
      cbn [andb]; try reflexivity; lia.
Qed.



(** C2 (where the batch loop and the generic variant part). When
    [powf (-1, power)] is a NaN, as it is for a power that is not an
    integer, an SSE variant built with simdmath stores a NaN for every lane
    of a batch that compares below zero, whatever [powf4] returns; the
    generic variant stores [powf] of that element, which for minus infinity
    is an infinity or a zero. *)
Theorem batch_lane_is_nan_where_generic_follows_powf (v : variant)
    (cVector aVector : addr) (power : float) (num_points : u32) (m : machine)
    (i : Z) :
  v <> GENERIC -> aligned aVector = true -> aligned cVector = true ->
  forward_safe cVector aVector (word.unsigned num_points) ->
  0 <= i < 4 * (word.unsigned num_points / 4) ->
  f_lt (mem m (aVector + i)) F_ZERO = true ->
  is_nan (powf F_NEG_ONE power) = true ->
  exists m' g',
    run powf powf4_lane true v cVector aVector power num_points m = Done m'
    /\ volk_32f_s32f_power_32f_generic powf cVector aVector power num_points m
       = Done g'
    /\ is_nan (mem m' (cVector + i)) = true
    /\ mem g' (cVector + i) = powf (mem m (aVector + i)) power.
Proof.
  intros Hv Hal_a Hal_c Hsafe Hi Hneg Hnan.
  destruct (simd_batch_values powf powf4_lane v cVector aVector power
              num_points m Hv Hal_a Hal_c Hsafe)
    as (m' & _ & Hrun & _ & _ & Hout).
  destruct (generic_values powf cVector aVector power num_points m Hsafe)
    as (g' & Hgen & Hval).
  exists m', g'. split; [exact Hrun|]. split; [exact Hgen|]. split.
  - rewrite (Hout i Hi). unfold batch_lane. rewrite Hneg.
    apply f_mul_nan_l, Hnan.
  - apply Hval.
    pose proof (u32_range num_points).
    Z.div_mod_to_equations; lia.
Qed.

End Properties.

(** * The kernel on examples *)

(** The squares of 0..9: every variant, in both builds. *)
Example squares_of_zero_to_nine (simdmath : bool) (v : variant) :
  dump 16 10
    (run powf_example powf4_lane_example simdmath v 16 0 F_TWO (u32_lit 10)
       (machine_of 0 zero_to_nine F_ZERO))
  = [0x00000000; 0x3F800000; 0x40800000; 0x41100000; 0x41800000;
     0x41C80000; 0x42100000; 0x42440000; 0x42800000; 0x42A20000].
Proof. destruct simdmath, v; vm_compute; reflexivity. Qed.

(** The cubes of -2..2, one batch and a tail of one. *)
Example cubes_of_minus_two_to_two (simdmath : bool) (v : variant) :
  dump 8 5
    (run powf_example powf4_lane_example simdmath v 8 0 F_THREE (u32_lit 5)
       (machine_of 0 minus_two_to_two F_ZERO))
  = [0xC1000000; 0xBF800000; 0x00000000; 0x3F800000; 0x41000000].
Proof. destruct simdmath, v; vm_compute; reflexivity. Qed.

(** The square root of -4 is a NaN. *)
Example root_of_minus_four (simdmath : bool) (v : variant) :
  dump 4 1
    (run powf_example powf4_lane_example simdmath v 4 0 F_HALF (u32_lit 1)
       (machine_of 0 [u32_lit 0xC0800000] F_ZERO))
  = [Binary32.indefinite].
Proof. destruct simdmath, v; vm_compute; reflexivity. Qed.

(** Minus infinity to the power one half in a batch: the SSE variants built
    with simdmath store a NaN where the generic variant stores plus
    infinity. *)
Example root_of_minus_infinity :
  dump 4 1
    (run powf_example powf4_lane_example true A_SSE 4 0 F_HALF (u32_lit 4)
       (machine_of 0 minus_infinity_and_ones F_ZERO))
  = [Binary32.indefinite]
  /\ dump 4 1
       (run powf_example powf4_lane_example true A_SSE4_1 4 0 F_HALF
          (u32_lit 4) (machine_of 0 minus_infinity_and_ones F_ZERO))
     = [Binary32.indefinite]
  /\ dump 4 1
       (run powf_example powf4_lane_example true GENERIC 4 0 F_HALF
          (u32_lit 4) (machine_of 0 minus_infinity_and_ones F_ZERO))
     = [word.unsigned F_INF].
Proof. vm_compute. repeat split; reflexivity. Qed.

(** * The properties at concrete inputs *)

Lemma forward_safe_16_0_10 : forward_safe 16 0 (word.unsigned (u32_lit 10)).
Proof.
  intros i j Hj Hi. change (word.unsigned (u32_lit 10)) with 10 in Hi. lia.
Defined.

Lemma forward_safe_4_0_4 : forward_safe 4 0 (word.unsigned (u32_lit 4)).
Proof.
  intros i j Hj Hi. change (word.unsigned (u32_lit 4)) with 4 in Hi. lia.
Defined.

Lemma generic_writes_powf_elementwise_witness :
  forward_safe 16 0 (word.unsigned (u32_lit 10))
  /\ exists m',
       volk_32f_s32f_power_32f_generic powf_example 16 0 F_TWO (u32_lit 10)
         (machine_of 0 zero_to_nine F_ZERO) = Done m'
       /\ (forall i, 0 <= i < word.unsigned (u32_lit 10) ->
             mem m' (16 + i)
             = powf_example (mem (machine_of 0 zero_to_nine F_ZERO) (0 + i))
                 F_TWO).
Proof.
  split; [exact forward_safe_16_0_10|].
  destruct (generic_writes_powf_elementwise powf_example 16 0 F_TWO
              (u32_lit 10) (machine_of 0 zero_to_nine F_ZERO)
              forward_safe_16_0_10) as (m' & Hrun & Hval & _).
  exists m'. split; [exact Hrun | exact Hval].
Defined.



Lemma accesses_stay_in_bounds_witness :
  precondition true A_SSE 16 0
  /\ exists m' acc,
       run powf_example powf4_lane_example true A_SSE 16 0 F_TWO (u32_lit 10)
         (machine_of 0 zero_to_nine F_ZERO) = Done m'
       /\ accesses (trace m') = [] ++ acc
       /\ Forall (in_bounds 16 0 (word.unsigned (u32_lit 10))) acc.
Proof.
  assert (Hpre : precondition true A_SSE 16 0)
    by (intros _; split; reflexivity).
  split; [exact Hpre|].
  exact (accesses_stay_in_bounds powf_example powf4_lane_example true A_SSE
           16 0 F_TWO (u32_lit 10) (machine_of 0 zero_to_nine F_ZERO) Hpre).
Defined.

Lemma output_is_a_function_of_the_inputs_witness :
  precondition true A_SSE4_1 16 0
  /\ forward_safe 16 0 (word.unsigned (u32_lit 10))
  /\ (forall i, 0 <= i < word.unsigned (u32_lit 10) ->
        mem (machine_of 0 zero_to_nine F_ZERO) (0 + i)
        = mem (machine_of 0 zero_to_nine F_ONE) (0 + i))
  /\ exists m1' m2',
       run powf_example powf4_lane_example true A_SSE4_1 16 0 F_TWO
         (u32_lit 10) (machine_of 0 zero_to_nine F_ZERO) = Done m1'
       /\ run powf_example powf4_lane_example true A_SSE4_1 16 0 F_TWO
            (u32_lit 10) (machine_of 0 zero_to_nine F_ONE) = Done m2'
       /\ (forall i, 0 <= i < word.unsigned (u32_lit 10) ->
             mem m1' (16 + i) = mem m2' (16 + i)).
Proof.
  assert (Hpre : precondition true A_SSE4_1 16 0)
    by (intros _; split; reflexivity).
  assert (Hin : forall i, 0 <= i < word.unsigned (u32_lit 10) ->
                  mem (machine_of 0 zero_to_nine F_ZERO) (0 + i)
                  = mem (machine_of 0 zero_to_nine F_ONE) (0 + i)).
  { intros i Hi. change (word.unsigned (u32_lit 10)) with 10 in Hi.
    assert (Hc : i = 0 \/ i = 1 \/ i = 2 \/ i = 3 \/ i = 4 \/ i = 5 \/ i = 6
                 \/ i = 7 \/ i = 8 \/ i = 9) by lia.
    repeat (destruct Hc as [->|Hc]; [reflexivity|]). subst i. reflexivity. }
  split; [exact Hpre|]. split; [exact forward_safe_16_0_10|].
  split; [exact Hin|].
  destruct (output_is_a_function_of_the_inputs powf_example powf4_lane_example
              true A_SSE4_1 16 0 F_TWO (u32_lit 10)
              (machine_of 0 zero_to_nine F_ZERO)
              (machine_of 0 zero_to_nine F_ONE)
              Hpre forward_safe_16_0_10 Hin)
    as (m1' & m2' & acc & Hrun1 & Hrun2 & Hout & _).
  exists m1', m2'. split; [exact Hrun1|]. split; [exact Hrun2 | exact Hout].
Defined.


Lemma batch_lane_is_nan_where_generic_follows_powf_witness :
  A_SSE <> GENERIC /\ aligned 0 = true /\ aligned 4 = true
  /\ forward_safe 4 0 (word.unsigned (u32_lit 4))
  /\ 0 <= 0 < 4 * (word.unsigned (u32_lit 4) / 4)
  /\ f_lt (mem (machine_of 0 minus_infinity_and_ones F_ZERO) (0 + 0)) F_ZERO
     = true
  /\ is_nan (powf_example F_NEG_ONE F_HALF) = true
  /\ exists m' g',
       run powf_example powf4_lane_example true A_SSE 4 0 F_HALF (u32_lit 4)
         (machine_of 0 minus_infinity_and_ones F_ZERO) = Done m'
       /\ volk_32f_s32f_power_32f_generic powf_example 4 0 F_HALF (u32_lit 4)
            (machine_of 0 minus_infinity_and_ones F_ZERO) = Done g'
       /\ is_nan (mem m' (4 + 0)) = true
       /\ mem g' (4 + 0) = F_INF.
Proof.
  assert (Hi : 0 <= 0 < 4 * (word.unsigned (u32_lit 4) / 4))
    by (change (word.unsigned (u32_lit 4)) with 4; cbn; lia).
  split; [discriminate|]. split; [reflexivity|]. split; [reflexivity|].
  split; [exact forward_safe_4_0_4|]. split; [exact Hi|].
  split; [reflexivity|]. split; [reflexivity|].
  destruct (batch_lane_is_nan_where_generic_follows_powf powf_example
              powf4_lane_example A_SSE 4 0 F_HALF (u32_lit 4)
              (machine_of 0 minus_infinity_and_ones F_ZERO) 0)
    as (m' & g' & Hrun & Hgen & Hnan & Hval);
    [discriminate | reflexivity | reflexivity | exact forward_safe_4_0_4
     | exact Hi | reflexivity | reflexivity |].
  exists m', g'. split; [exact Hrun|]. split; [exact Hgen|].
  split; [exact Hnan|]. rewrite Hval. reflexivity.
Defined.

(** * Further properties of the kernel *)

(** ** Small and misaligned calls *)

Section SmallCalls.

Variable powf : float -> float -> float.



Variable powf4_lane : float -> float -> float.


(** A batch body faults as soon as one of its two pointers is misaligned:
    at the load for the input pointer, at the store for the output
    pointer. *)
Lemma sse4_1_step_misaligned (vPower zeroValue negativeOneToPower onesMask :
    __m128) (f : frame) :
  aligned (aPtr f) = false \/ aligned (cPtr f) = false ->
  sse4_1_step powf4_lane vPower zeroValue negativeOneToPower onesMask f = Fault.
Proof.
  intros H. unfold sse4_1_step.
  destruct (aligned (aPtr f)) eqn:Ha.
  - destruct H as [H|Hc]; [discriminate|].
    rewrite (_mm_load_ps_aligned _ _ Ha). cbn [bind].
    unfold call_powf4, _mm_store_ps. rewrite Hc. reflexivity.
  - unfold _mm_load_ps. rewrite Ha. reflexivity.
Qed.

(** X2. A call of an SSE variant built with simdmath on four elements or
    more faults when the input or the output buffer is not aligned. *)
Theorem misaligned_batch_faults (v : variant) (cVector aVector : addr)
    (power : float) (num_points : u32) (m : machine) :
  v <> GENERIC -> 4 <= word.unsigned num_points ->
  aligned aVector = false \/ aligned cVector = false ->
  run powf powf4_lane true v cVector aVector power num_points m = Fault.
Proof.
  intros Hv Hn Hmis.
  pose proof (u32_range num_points) as HR.
  assert (HQ : 0 < word.unsigned (word.divu num_points (u32_lit 4))).
  { rewrite unsigned_quarter. Z.div_mod_to_equations. lia. }
  assert (Hfuel : exists k, fuel_of num_points = S k).
  { unfold fuel_of. exists (Z.to_nat (word.unsigned num_points - 1)). lia. }
  destruct Hfuel as (k & Hk).
  destruct v; [| |congruence];
    cbn [run]; unfold volk_32f_s32f_power_32f_a_sse4_1,
      volk_32f_s32f_power_32f_a_sse, simd_part, call_powf;
    cbn [number cPtr aPtr mach]; rewrite Hk; cbn [batch_loop number];
    rewrite word.unsigned_ltu; change (word.unsigned (u32_lit 0)) with 0;
    destruct (Z.ltb_spec 0 (word.unsigned (word.divu num_points (u32_lit 4))));
    try lia; rewrite ?sse_step_eq, sse4_1_step_misaligned by exact Hmis;
    reflexivity.
Qed.

End SmallCalls.

(** ** Multiplying by minus one, and the lanes whose correction is a unit *)

(** Minus one times a finite value in canonical form is its opposite. *)
Lemma SFmul_minus_one_finite (s : bool) (m : positive) (e : Z) :
  fexp Binary32.prec Binary32.emax (Z.pos (digits2_pos m) + e) = e ->
  e <= 104 ->
  SFmul Binary32.prec Binary32.emax (S754_finite true 8388608 (-23))
    (S754_finite s m e)
  = S754_finite (negb s) m e.
Proof.
  intros Hcanon He.
  unfold SFmul. cbn [xorb Pos.mul].
  unfold binary_round_aux, shr_fexp.
  cbn [Zdigits2 digits2_pos].
  rewrite !Pos2Z.inj_succ.
  replace (Z.succ (Z.succ (Z.succ (Z.succ (Z.succ (Z.succ (Z.succ (Z.succ
            (Z.succ (Z.succ (Z.succ (Z.succ (Z.succ (Z.succ (Z.succ (Z.succ
            (Z.succ (Z.succ (Z.succ (Z.succ (Z.succ (Z.succ (Z.succ
            (Z.pos (digits2_pos m)))))))))))))))))))))))) + (-23 + e))
    with (Z.pos (digits2_pos m) + e) by lia.
  rewrite Hcanon.
  replace (e - (-23 + e)) with 23 by lia.
  cbn [shr shr_record_of_loc iter_pos shr_1 orb shr_m loc_of_shr_record
       round_nearest_even Zdigits2].
  replace (-23 + e + 23) with e by lia.
  rewrite Hcanon, Z.sub_diag. cbn [shr shr_m].
  unfold Binary32.emax, Binary32.prec. change (128 - 24) with 104.
  destruct (Z.leb_spec e 104); [reflexivity | lia].
Qed.

(** Flipping the sign bit of a bit pattern adds or removes its weight. *)
Lemma unsigned_f_neg (x : float) :
  word.unsigned (f_neg x)
  = if Z.testbit (word.unsigned x) 31
    then word.unsigned x - 2 ^ 31 else word.unsigned x + 2 ^ 31.
Proof.
  unfold f_neg, u32_lit.
  rewrite word.unsigned_xor_nowrap, word.unsigned_of_Z. unfold word.wrap.
  change (0x80000000 mod 2 ^ 32) with (2 ^ 31).
  pose proof (u32_range x) as HX.
  pose proof (Z.testbit_spec' (word.unsigned x) 31 ltac:(lia)) as Hb.
  remember (word.unsigned x) as X eqn:EX. clear EX.
  assert (Hland : Z.land (X mod 2 ^ 31) (2 ^ 31) = 0).
  { apply Z.bits_inj'. intros k Hk.
    rewrite Z.land_spec, Z.bits_0, Z.pow2_bits_eqb by lia.
    destruct (Z.eqb_spec 31 k) as [<-|Hne].
    - rewrite Z.mod_pow2_bits_high by lia. reflexivity.
    - apply andb_false_r. }
  destruct (Z.testbit X 31); cbn [Z.b2z] in Hb.
  - assert (HXr : X = X mod 2 ^ 31 + 2 ^ 31).
    { change (2 ^ 31) with 2147483648 in *.
      change (2 ^ 32) with 4294967296 in *.
      Z.div_mod_to_equations. lia. }
    rewrite HXr at 1.
    rewrite (Z.add_nocarry_lxor _ _ Hland).
    rewrite Z.lxor_assoc, Z.lxor_nilpotent, Z.lxor_0_r. lia.
  - assert (HXr : X = X mod 2 ^ 31).
    { change (2 ^ 31) with 2147483648 in *.
      change (2 ^ 32) with 4294967296 in *.
      Z.div_mod_to_equations. lia. }
    rewrite HXr at 1.
    rewrite <- (Z.add_nocarry_lxor _ _ Hland). lia.
Qed.

(** The opposite of the value of a bit pattern that is not a NaN is encoded
    by that pattern with its sign bit flipped. *)
Lemma encode_opp_decode (x : float) :
  is_nan x = false -> encode (SFopp (decode x)) = f_neg x.
Proof.
  intros Hnan. apply word.unsigned_inj. rewrite unsigned_f_neg.
  unfold encode. rewrite word.unsigned_of_Z. unfold word.wrap.
  revert Hnan. unfold is_nan, decode, Binary32.decode_bits.
  pose proof (u32_range x) as HX.
  destruct (bits_split _ HX) as (Hsplit & He & Hf).
  change (Z.testbit (word.unsigned x) 31)
    with (Binary32.sign_of (word.unsigned x)).
  remember (Binary32.sign_of (word.unsigned x)) as s eqn:Es in *.
  remember (Binary32.expo_of (word.unsigned x)) as e eqn:Ee in *.
  remember (Binary32.frac_of (word.unsigned x)) as m eqn:Em in *.
  remember (word.unsigned x) as X eqn:EX in *.
  clear Es Ee Em EX.
  change (2 ^ 32) with 4294967296 in *. change (2 ^ 31) with 2147483648.
  destruct (Z.eqb_spec e 0) as [He0|He0].
  - destruct m as [|p|p]; try lia; intros _;
      cbn [SFopp Binary32.encode_bits].
    + destruct s; cbn [negb Binary32.sign_weight] in *;
        rewrite Z.mod_small; lia.
    + destruct (Z.ltb_spec (Z.pos p) 8388608); try lia.
      destruct s; cbn [negb Binary32.sign_weight] in *;
        rewrite Z.mod_small; lia.
  - destruct (Z.eqb_spec e 255) as [He1|He1].
    + destruct (Z.eqb_spec m 0) as [Hm|Hm]; [|discriminate].
      intros _. cbn [SFopp Binary32.encode_bits].
      change 0x7F800000 with 2139095040.
      destruct s; cbn [negb Binary32.sign_weight] in *;
        rewrite Z.mod_small; lia.
    + destruct (m + 8388608) as [|p|p] eqn:Emp; try lia.
      intros _. cbn [SFopp Binary32.encode_bits].
      destruct (Z.ltb_spec (Z.pos p) 8388608); try lia.
      destruct s; cbn [negb Binary32.sign_weight] in *;
        rewrite Z.mod_small; lia.
Qed.

(** Multiplying by [-1.0] flips the sign bit and nothing else, except that a
    NaN goes through the NaN rules. *)
Lemma f_mul_minus_one_l (y : float) :
  is_nan y = false -> f_mul F_NEG_ONE y = f_neg y.
Proof.
  intros Hnan. unfold f_mul, sse_arith.
  replace (is_nan F_NEG_ONE) with false by reflexivity. rewrite Hnan.
  replace (decode F_NEG_ONE) with (S754_finite true 8388608 (-23))
    by reflexivity.
  rewrite <- (encode_opp_decode y Hnan). f_equal.
  destruct (decode y) as [s|s| |s m e] eqn:Hy.
  - reflexivity.
  - reflexivity.
  - unfold is_nan in Hnan. rewrite Hy in Hnan. discriminate.
  - destruct (decode_canonical y s m e Hy) as (Hc & He).
    apply SFmul_minus_one_finite; assumption.
Qed.

Section UnitCorrections.

Variable powf : float -> float -> float.
Variable powf4_lane : float -> float -> float.

(** X3. In an SSE variant built with simdmath, a batch lane that does not
    compare below zero (a positive value, a zero of either sign, a NaN)
    comes out as exactly what [powf4] returned for it, bit for bit, unless
    that is a NaN: the multiplication by [1.0] changes nothing. *)
Theorem lane_not_below_zero_is_powf4_result (v : variant)
    (cVector aVector : addr) (power : float) (num_points : u32) (m : machine) :
  v <> GENERIC -> aligned aVector = true -> aligned cVector = true ->
  forward_safe cVector aVector (word.unsigned num_points) ->
  exists m',
    run powf powf4_lane true v cVector aVector power num_points m = Done m'
    /\ forall i, 0 <= i < 4 * (word.unsigned num_points / 4) ->
         f_lt (mem m (aVector + i)) F_ZERO = false ->
         is_nan (powf4_lane (mem m (aVector + i)) power) = false ->
         mem m' (cVector + i) = powf4_lane (mem m (aVector + i)) power.
Proof.
  intros Hv Hal_a Hal_c Hsafe.
  destruct (simd_batch_values powf powf4_lane v cVector aVector power
              num_points m Hv Hal_a Hal_c Hsafe)
    as (m' & _ & Hrun & _ & _ & Hout).
  exists m'. split; [exact Hrun|].
  intros i Hi Hlt Hnan. rewrite (Hout i Hi). unfold batch_lane.
  rewrite Hlt. apply f_mul_one_l, Hnan.
Qed.

(** X4. In an SSE variant built with simdmath, for a batch lane [x] that
    compares below zero and whose [powf4 (|x|, power)] is not a NaN: when
    [powf (-1, power)] is [1.0], as for an even integer power, the lane
    comes out as [powf4 (|x|, power)] itself; when it is [-1.0], as for an
    odd integer power, the lane comes out as that result with its sign bit
    flipped. *)
Theorem lane_below_zero_takes_the_sign_of_minus_one_to_the_power
    (v : variant) (cVector aVector : addr) (power : float) (num_points : u32)
    (m : machine) :
  v <> GENERIC -> aligned aVector = true -> aligned cVector = true ->
  forward_safe cVector aVector (word.unsigned num_points) ->
  exists m',
    run powf powf4_lane true v cVector aVector power num_points m = Done m'
    /\ forall i, 0 <= i < 4 * (word.unsigned num_points / 4) ->
         f_lt (mem m (aVector + i)) F_ZERO = true ->
         is_nan (powf4_lane (f_abs (mem m (aVector + i))) power) = false ->
         (powf F_NEG_ONE power = F_ONE ->
          mem m' (cVector + i)
          = powf4_lane (f_abs (mem m (aVector + i))) power)
         /\ (powf F_NEG_ONE power = F_NEG_ONE ->
             mem m' (cVector + i)
             = f_neg (powf4_lane (f_abs (mem m (aVector + i))) power)).
Proof.
  intros Hv Hal_a Hal_c Hsafe.
  destruct (simd_batch_values powf powf4_lane v cVector aVector power
              num_points m Hv Hal_a Hal_c Hsafe)
    as (m' & _ & Hrun & _ & _ & Hout).
  exists m'. split; [exact Hrun|].
  intros i Hi Hlt Hnan. rewrite (Hout i Hi). unfold batch_lane.
  rewrite Hlt. split; intros ->.
  - apply f_mul_one_l, Hnan.
  - apply f_mul_minus_one_l, Hnan.
Qed.

End UnitCorrections.

(** ** Calls in pieces, in place, and on overlapping buffers *)

Lemma forward_safe_shorter (c a : addr) (n n' : Z) :
  n' <= n -> forward_safe c a n -> forward_safe c a n'.
Proof. intros Hn H i j Hj Hi. apply H; lia. Qed.

Lemma forward_safe_shifted (c a : addr) (k n : Z) :
  0 <= k -> forward_safe c a (k + n) -> forward_safe (c + k) (a + k) n.
Proof.
  intros Hk H i j Hj Hi Heq. apply (H (i + k) (j + k)); lia.
Qed.

Lemma forward_safe_in_place (a : addr) (n : Z) : forward_safe a a n.
Proof. intros i j Hj Hi. lia. Qed.

Lemma forward_safe_disjoint (c a : addr) (n : Z) :
  c + n <= a \/ a + n <= c -> forward_safe c a n.
Proof. intros H i j Hj Hi. lia. Qed.

Section Pieces.

Variable powf : float -> float -> float.
Variable powf4_lane : float -> float -> float.

(** X5. A call may be cut in two. Running a variant on the first
    [n1] elements and then, with both pointers advanced by [n1], on the
    remaining [n2] leaves memory as one call on [n1 + n2] elements does,
    provided that [n1] is a multiple of four when the batch loop is compiled
    in (so that the cut falls between two batches); for the generic variant
    and the builds without simdmath any cut will do. *)
Theorem call_in_two_pieces (simdmath : bool) (v : variant)
    (cVector aVector : addr) (power : float) (num_points n1 n2 : u32)
    (m : machine) :
  word.unsigned num_points = word.unsigned n1 + word.unsigned n2 ->
  (is_simd simdmath v = true -> word.unsigned n1 mod 4 = 0) ->
  precondition simdmath v cVector aVector ->
  forward_safe cVector aVector (word.unsigned num_points) ->
  exists m1 m2 mw,
    run powf powf4_lane simdmath v cVector aVector power n1 m = Done m1
    /\ run powf powf4_lane simdmath v (cVector + word.unsigned n1)
         (aVector + word.unsigned n1) power n2 m1 = Done m2
    /\ run powf powf4_lane simdmath v cVector aVector power num_points m
       = Done mw
    /\ forall q, mem m2 q = mem mw q.
Proof.
  intros Hsum Hcut Hpre Hsafe.
  pose proof (u32_range n1) as HR1. pose proof (u32_range n2) as HR2.
  set (n := word.unsigned num_points) in *.
  set (k1 := word.unsigned n1) in *. set (k2 := word.unsigned n2) in *.
  assert (Hpre2 : precondition simdmath v (cVector + k1) (aVector + k1)).
  { intros Hs. destruct (Hpre Hs) as (Ha & Hc). specialize (Hcut Hs).
    assert (Hk : k1 = 4 * (k1 / 4)) by (Z.div_mod_to_equations; lia).
    rewrite Hk. split; apply aligned_shift; assumption. }
  destruct (run_effect powf powf4_lane simdmath v cVector aVector power n1 m
              Hpre) as (m1 & Hrun1 & _ & Hmem1).
  destruct (run_effect powf powf4_lane simdmath v (cVector + k1)
              (aVector + k1) power n2 m1 Hpre2) as (m2 & Hrun2 & _ & Hmem2).
  destruct (run_effect powf powf4_lane simdmath v cVector aVector power
              num_points m Hpre) as (mw & Hrunw & _ & Hmemw).
  fold k1 in Hmem1. fold k2 in Hmem2. fold n in Hmemw.
  specialize (Hmem1 (forward_safe_shorter _ _ n k1 ltac:(lia) Hsafe)).
  assert (Hsafe2 : forward_safe (cVector + k1) (aVector + k1) k2).
  { apply forward_safe_shifted; [lia|]. rewrite <- Hsum. exact Hsafe. }
  specialize (Hmem2 Hsafe2). specialize (Hmemw Hsafe).
  exists m1, m2, mw. repeat (split; [assumption|]).
  intros q. rewrite Hmem2, Hmemw.
  destruct (Z.leb_spec (cVector + k1) q), (Z.ltb_spec q (cVector + k1 + k2));
    cbn [andb].
  - (* the second piece *)
    destruct (Z.leb_spec cVector q), (Z.ltb_spec q (cVector + n));
      cbn [andb]; try lia.
    replace (aVector + k1 + (q - (cVector + k1))) with (aVector + (q - cVector))
      by lia.
    assert (Hin : mem m1 (aVector + (q - cVector))
                  = mem m (aVector + (q - cVector))).
    { rewrite Hmem1.
      destruct (Z.leb_spec cVector (aVector + (q - cVector))),
        (Z.ltb_spec (aVector + (q - cVector)) (cVector + k1));
        cbn [andb]; try reflexivity.
      exfalso.
      apply (Hsafe (q - cVector) (aVector + (q - cVector) - cVector)); lia. }
    rewrite Hin. unfold expected.
    destruct (is_simd simdmath v) eqn:Hs; cbn [andb]; [|reflexivity].
    specialize (Hcut eq_refl).
    assert (Hq : 4 * (n / 4) = k1 + 4 * (k2 / 4))
      by (Z.div_mod_to_equations; lia).
    rewrite Hq.
    destruct (Z.ltb_spec (q - (cVector + k1)) (4 * (k2 / 4))),
      (Z.ltb_spec (q - cVector) (k1 + 4 * (k2 / 4))); try reflexivity; lia.
  - rewrite Hmem1.
    destruct (Z.leb_spec cVector q), (Z.ltb_spec q (cVector + k1)),
      (Z.ltb_spec q (cVector + n)); cbn [andb]; try reflexivity; lia.
  - (* the first piece *)
    rewrite Hmem1.
    destruct (Z.leb_spec cVector q), (Z.ltb_spec q (cVector + k1)),
      (Z.ltb_spec q (cVector + n)); cbn [andb]; try reflexivity; try lia.
    unfold expected.
    destruct (is_simd simdmath v) eqn:Hs; cbn [andb]; [|reflexivity].
    specialize (Hcut eq_refl).
    assert (Hq1 : 4 * (k1 / 4) = k1) by (Z.div_mod_to_equations; lia).
    assert (Hq : k1 <= 4 * (n / 4)) by (Z.div_mod_to_equations; lia).
    rewrite Hq1.
    destruct (Z.ltb_spec (q - cVector) k1),
      (Z.ltb_spec (q - cVector) (4 * (n / 4))); try reflexivity; lia.
  - rewrite Hmem1.
    destruct (Z.leb_spec cVector q), (Z.ltb_spec q (cVector + k1)),
      (Z.ltb_spec q (cVector + n)); cbn [andb]; try reflexivity; lia.
Qed.

(** X7. A call may be made in place. With [cVector = aVector] every
    variant leaves at index [i] of the buffer what the same call leaves at
    index [i] of a separate output buffer that does not overlap the
    input. *)
Theorem in_place_call_matches_separate_output (simdmath : bool) (v : variant)
    (cVector aVector : addr) (power : float) (num_points : u32) (m : machine) :
  precondition simdmath v cVector aVector ->
  cVector + word.unsigned num_points <= aVector
  \/ aVector + word.unsigned num_points <= cVector ->
  exists mi mo,
    run powf powf4_lane simdmath v aVector aVector power num_points m = Done mi
    /\ run powf powf4_lane simdmath v cVector aVector power num_points m
       = Done mo
    /\ forall i, 0 <= i < word.unsigned num_points ->
         mem mi (aVector + i) = mem mo (cVector + i).
Proof.
  intros Hpre Hdis.
  assert (Hpre' : precondition simdmath v aVector aVector).
  { intros Hs. destruct (Hpre Hs) as (Ha & _). split; exact Ha. }
  destruct (run_effect powf powf4_lane simdmath v aVector aVector power
              num_points m Hpre') as (mi & Hruni & _ & Hmemi).
  destruct (run_effect powf powf4_lane simdmath v cVector aVector power
              num_points m Hpre) as (mo & Hruno & _ & Hmemo).
  specialize (Hmemi (forward_safe_in_place _ _)).
  specialize (Hmemo (forward_safe_disjoint _ _ _ Hdis)).
  exists mi, mo. repeat (split; [assumption|]).
  intros i Hi. rewrite Hmemi, Hmemo.
  destruct (Z.leb_spec aVector (aVector + i)),
    (Z.ltb_spec (aVector + i) (aVector + word.unsigned num_points)),
    (Z.leb_spec cVector (cVector + i)),
    (Z.ltb_spec (cVector + i) (cVector + word.unsigned num_points));
    cbn [andb]; try lia.
  replace (aVector + i - aVector) with i by lia.
  replace (cVector + i - cVector) with i by lia. reflexivity.
Qed.

(** The power applied [k] times. *)
Definition powf_iterated (power : float) (k : nat) (x : float) : float :=
  Nat.iter k (fun y => powf y power) x.

(** The generic loop on an output buffer that starts one element after the
    input buffer, when [number] is [k]: the output elements written so far
    hold the iterated powers of the first input element. *)
Definition cascade_inv (power : float) (a : addr) (n : Z) (h0 : addr -> float)
    (k : Z) (f : frame) : Prop :=
  0 <= k <= n
  /\ word.unsigned (number f) = k
  /\ cPtr f = a + 1 + k
  /\ aPtr f = a + k
  /\ forall q,
       mem (mach f) q
       = if (a + 1 <=? q) && (q <? a + 1 + k)
         then powf_iterated power (Z.to_nat (q - a)) (h0 a)
         else h0 q.

Lemma cascade_inv_step (power : float) (a : addr) (n : Z)
    (h0 : addr -> float) (k : Z) (f : frame) :
  n < 2 ^ 32 -> cascade_inv power a n h0 k f -> k < n ->
  cascade_inv power a n h0 (k + 1) (scalar_step powf power f).
Proof.
  intros Hn (Hk & Hnum & Hc & Ha & Hmem) Hlt.
  destruct f as [num cp ap [h t]]. cbn [number cPtr aPtr mach mem trace] in *.
  subst cp ap.
  unfold cascade_inv, scalar_step, load, call_powf, store, record.
  cbn [number cPtr aPtr mach mem trace].
  repeat split; try lia.
  - rewrite unsigned_u32_incr; lia.
  - intros q. unfold poke.
    assert (Hread : h (a + k) = powf_iterated power (Z.to_nat k) (h0 a)).
    { rewrite Hmem.
      destruct (Z.leb_spec (a + 1) (a + k)), (Z.ltb_spec (a + k) (a + 1 + k));
        cbn [andb]; try lia.
      - do 2 f_equal. lia.
      - assert (k = 0) as -> by lia. rewrite Z.add_0_r. reflexivity. }
    destruct (Z.eqb_spec q (a + 1 + k)) as [->|Hq].
    + destruct (Z.leb_spec (a + 1) (a + 1 + k)),
        (Z.ltb_spec (a + 1 + k) (a + 1 + (k + 1))); cbn [andb]; try lia.
      rewrite Hread.
      replace (Z.to_nat (a + 1 + k - a)) with (S (Z.to_nat k)) by lia.
      reflexivity.
    + rewrite Hmem.
      destruct (Z.leb_spec (a + 1) q), (Z.ltb_spec q (a + 1 + k)),
        (Z.ltb_spec q (a + 1 + (k + 1))); cbn [andb]; try reflexivity; lia.
Qed.

(** X6. The generic variant does not copy its input: called on an output
    buffer that starts one element after the input buffer, it reads at each
    round what it wrote at the round before, and leaves at index [i] of the
    output the power applied [i + 1] times to the first input element,
    whatever the other input elements were. *)
Theorem output_one_ahead_of_input_cascades (aVector : addr) (power : float)
    (num_points : u32) (m : machine) :
  exists m',
    volk_32f_s32f_power_32f_generic powf (aVector + 1) aVector power
      num_points m = Done m'
    /\ forall i, 0 <= i < word.unsigned num_points ->
         mem m' (aVector + 1 + i)
         = powf_iterated power (Z.to_nat (i + 1)) (mem m aVector).
Proof.
  pose proof (u32_range num_points) as HR.
  unfold volk_32f_s32f_power_32f_generic.
  rewrite scalar_loop_as_batch.
  destruct (batch_loop_invariant
              (cascade_inv power aVector (word.unsigned num_points) (mem m))
              (fun f => Done (scalar_step powf power f)) num_points)
    with (r := Z.to_nat (word.unsigned num_points))
         (fuel := fuel_of num_points) (k := 0)
         (f := mk_frame (u32_lit 0) (aVector + 1) aVector m)
    as (f' & Hrun & Hinv).
  - intros k g Hg. apply Hg.
  - intros k g Hg Hlt. eexists. split; [reflexivity|].
    apply cascade_inv_step; try assumption; lia.
  - unfold cascade_inv. cbn [number cPtr aPtr mach].
    repeat split; try reflexivity; try lia.
    intros q.
    destruct (Z.leb_spec (aVector + 1) q), (Z.ltb_spec q (aVector + 1 + 0));
      cbn [andb]; try reflexivity; lia.
  - lia.
  - unfold fuel_of. lia.
  - rewrite Hrun. cbn [bind]. exists (mach f'). split; [reflexivity|].
    destruct Hinv as (_ & _ & _ & _ & Hmem).
    intros i Hi. rewrite Hmem.
    destruct (Z.leb_spec (aVector + 1) (aVector + 1 + i)),
      (Z.ltb_spec (aVector + 1 + i) (aVector + 1 + word.unsigned num_points));
      cbn [andb]; try lia.
    do 2 f_equal. lia.
Qed.

End Pieces.

(** ** How often an element is touched *)

Lemma scalar_access_reads (c a : addr) (lo : Z) (len : nat) (i : Z) :
  occurrences (Rd (a + i)) (flat_map (scalar_access c a) (indices lo len))
  = if (lo <=? i) && (i <? lo + Z.of_nat len) then 1%nat else 0%nat.
Proof.
  induction len as [|len IH].
  - cbn. destruct (Z.leb_spec lo i), (Z.ltb_spec i (lo + 0));
      cbn [andb]; try reflexivity; lia.
  - rewrite indices_snoc, flat_map_app, occurrences_app, IH.
    cbn [flat_map scalar_access app occurrences].
    destruct (Z.eqb_spec (a + i) (a + (lo + Z.of_nat len)));
      destruct (Z.leb_spec lo i), (Z.ltb_spec i (lo + Z.of_nat len)),
        (Z.ltb_spec i (lo + Z.of_nat (S len))); cbn [andb]; lia.
Qed.

Lemma batch_access_reads (c a : addr) (len : nat) (i : Z) :
  occurrences (Rd (a + i)) (flat_map (batch_access c a) (indices 0 len))
  = if (0 <=? i) && (i <? 4 * Z.of_nat len) then 1%nat else 0%nat.
Proof.
  induction len as [|len IH].
  - cbn. destruct (Z.leb_spec 0 i), (Z.ltb_spec i 0);
      cbn [andb]; try reflexivity; lia.
  - rewrite indices_snoc, flat_map_app, occurrences_app, IH.
    cbn [flat_map batch_access app occurrences].
    destruct (Z.eqb_spec (a + i) (a + 4 * (0 + Z.of_nat len)));
      destruct (Z.eqb_spec (a + i) (a + 4 * (0 + Z.of_nat len) + 1));
      destruct (Z.eqb_spec (a + i) (a + 4 * (0 + Z.of_nat len) + 2));
      destruct (Z.eqb_spec (a + i) (a + 4 * (0 + Z.of_nat len) + 3));
      destruct (Z.leb_spec 0 i), (Z.ltb_spec i (4 * Z.of_nat len)),
        (Z.ltb_spec i (4 * Z.of_nat (S len))); cbn [andb]; lia.
Qed.

Section Touches.

Variable powf : float -> float -> float.
Variable powf4_lane : float -> float -> float.

(** X8. In every variant and both builds a call loads each of the
    [num_points] input elements exactly once and stores each of the
    [num_points] output elements exactly once, and makes no other access:
    [2 * num_points] accesses in all. *)
Theorem each_element_loaded_once_and_stored_once (simdmath : bool)
    (v : variant) (cVector aVector : addr) (power : float) (num_points : u32)
    (m : machine) :
  precondition simdmath v cVector aVector ->
  exists m' acc,
    run powf powf4_lane simdmath v cVector aVector power num_points m = Done m'
    /\ accesses (trace m') = accesses (trace m) ++ acc
    /\ length acc = Z.to_nat (2 * word.unsigned num_points)
    /\ forall i, 0 <= i < word.unsigned num_points ->
         occurrences (Rd (aVector + i)) acc = 1%nat
         /\ occurrences (Wr (cVector + i)) acc = 1%nat.
Proof.
  intros Hpre.
  destruct (run_effect powf powf4_lane simdmath v cVector aVector power
              num_points m Hpre) as (m' & Hrun & Hacc & _).
  pose proof (u32_range num_points) as HR.
  set (n := word.unsigned num_points) in *.
  assert (Hdiv : 0 <= 4 * (n / 4) <= n /\ n = 4 * (n / 4) + n mod 4
                 /\ 0 <= n mod 4 < 4 /\ 0 <= n / 4)
    by (Z.div_mod_to_equations; lia).
  exists m', (expected_accesses simdmath v cVector aVector n).
  split; [exact Hrun|]. split; [exact Hacc|].
  assert (Hlen_s : forall lo len,
             length (flat_map (scalar_access cVector aVector) (indices lo len))
             = (2 * len)%nat).
  { intros lo len. induction len as [|len IH]; [reflexivity|].
    rewrite indices_snoc, flat_map_app, length_app, IH. cbn. lia. }
  assert (Hlen_b : forall len,
             length (flat_map (batch_access cVector aVector) (indices 0 len))
             = (8 * len)%nat).
  { intros len. induction len as [|len IH]; [reflexivity|].
    rewrite indices_snoc, flat_map_app, length_app, IH. cbn. lia. }
  unfold expected_accesses, simd_accesses. destruct (is_simd simdmath v).
  - split.
    + rewrite length_app, Hlen_b, Hlen_s. lia.
    + intros i Hi.
      rewrite !occurrences_app, batch_access_reads, scalar_access_reads,
        batch_access_writes, scalar_access_writes.
      rewrite !Z2Nat.id by lia.
      destruct (Z.leb_spec 0 i), (Z.ltb_spec i (4 * (n / 4))),
        (Z.leb_spec (4 * (n / 4)) i),
        (Z.ltb_spec i (4 * (n / 4) + n mod 4)); cbn [andb]; lia.
  - split.
    + rewrite Hlen_s. lia.
    + intros i Hi.
      rewrite scalar_access_reads, scalar_access_writes.
      rewrite !Z2Nat.id by lia.
      destruct (Z.leb_spec 0 i), (Z.ltb_spec i (0 + n)); cbn [andb]; lia.
Qed.

End Touches.

(** ** Agreement with the generic variant, and the frame of a call *)

Section Agreement.

Variable powf : float -> float -> float.
Variable powf4_lane : float -> float -> float.

(** X9. An SSE variant built with simdmath leaves the output of the
    generic variant, bit for bit, on all [num_points] elements, whenever no
    element of the batches compares below zero and [powf4] returns for each
    of them what [powf] returns, that not being a NaN. Nothing is asked of
    the elements of the tail. *)
Theorem agrees_with_generic_where_powf4_agrees_with_powf (v : variant)
    (cVector aVector : addr) (power : float) (num_points : u32) (m : machine) :
  v <> GENERIC -> aligned aVector = true -> aligned cVector = true ->
  forward_safe cVector aVector (word.unsigned num_points) ->
  (forall i, 0 <= i < 4 * (word.unsigned num_points / 4) ->
     f_lt (mem m (aVector + i)) F_ZERO = false
     /\ powf4_lane (mem m (aVector + i)) power
        = powf (mem m (aVector + i)) power
     /\ is_nan (powf (mem m (aVector + i)) power) = false) ->
  exists m' g',
    run powf powf4_lane true v cVector aVector power num_points m = Done m'
    /\ volk_32f_s32f_power_32f_generic powf cVector aVector power num_points m
       = Done g'
    /\ forall i, 0 <= i < word.unsigned num_points ->
         mem m' (cVector + i) = mem g' (cVector + i).
Proof.
  intros Hv Hal_a Hal_c Hsafe Hlanes.
  assert (Hpre : precondition true v cVector aVector)
    by (intros _; split; assumption).
  destruct (run_effect powf powf4_lane true v cVector aVector power num_points
              m Hpre) as (m' & Hrun & _ & Hmem).
  destruct (generic_values powf cVector aVector power num_points m Hsafe)
    as (g' & Hgen & Hval).
  specialize (Hmem Hsafe).
  exists m', g'. repeat (split; [assumption|]).
  intros i Hi. rewrite (Hval i Hi), Hmem.
  destruct (Z.leb_spec cVector (cVector + i)),
    (Z.ltb_spec (cVector + i) (cVector + word.unsigned num_points));
    cbn [andb]; try lia.
  replace (cVector + i - cVector) with i by lia.
  unfold expected.
  assert (Hs : is_simd true v = true) by (destruct v; [reflexivity..|congruence]).
  rewrite Hs. cbn [andb].
  destruct (Z.ltb_spec i (4 * (word.unsigned num_points / 4))) as [Hb|Hb];
    [|reflexivity].
  destruct (Hlanes i ltac:(lia)) as (Hlt & Heq & Hnan).
  unfold batch_lane. rewrite Hlt, Heq. apply f_mul_one_l, Hnan.
Qed.

End Agreement.

Section Frame.

Variable powf : float -> float -> float.

Variables (c a : addr) (n : Z).

(** A loop that advances both pointers by [w] per round, when [number] is
    [k]: memory outside the output buffer is what it was at the start. *)
Definition outside_inv (w bound : Z) (h0 : addr -> float) (k : Z) (f : frame) :
    Prop :=
  0 <= k <= bound
  /\ word.unsigned (number f) = k
  /\ cPtr f = c + w * k
  /\ aPtr f = a + w * k
  /\ forall q, ~ c <= q < c + n -> mem (mach f) q = h0 q.

Lemma outside_inv_scalar_step (power : float) (h0 : addr -> float) (k : Z)
    (f : frame) :
  n < 2 ^ 32 -> outside_inv 1 n h0 k f -> k < n ->
  outside_inv 1 n h0 (k + 1) (scalar_step powf power f).
Proof.
  intros Hn (Hk & Hnum & Hc & Ha & Hmem) Hlt.
  destruct f as [num cp ap [h t]]. cbn [number cPtr aPtr mach mem trace] in *.
  subst cp ap.
  unfold outside_inv, scalar_step, load, call_powf, store, record.
  cbn [number cPtr aPtr mach mem trace].
  repeat split; try lia.
  - rewrite unsigned_u32_incr; lia.
  - intros q Hq. unfold poke.
    destruct (Z.eqb_spec q (c + 1 * k)); [lia|]. apply Hmem, Hq.
Qed.

Lemma outside_inv_batch_step (g b : float -> float) (vPower : __m128)
    (Q : Z) (h0 : addr -> float) (k : Z) (f : frame) :
  4 * Q <= n -> n < 2 ^ 32 -> outside_inv 4 Q h0 k f -> k < Q ->
  outside_inv 4 Q h0 (k + 1) (batch_frame g b vPower f).
Proof.
  intros HQ Hn (Hk & Hnum & Hc & Ha & Hmem) Hlt.
  destruct f as [num cp ap [h t]]. cbn [number cPtr aPtr mach mem trace] in *.
  subst cp ap.
  unfold outside_inv, batch_frame. cbn [number cPtr aPtr mach mem trace].
  repeat split; try lia.
  - rewrite unsigned_u32_incr; lia.
  - intros q Hq. unfold poke.
    destruct (Z.eqb_spec q (c + 4 * k + 3)); [lia|].
    destruct (Z.eqb_spec q (c + 4 * k + 2)); [lia|].
    destruct (Z.eqb_spec q (c + 4 * k + 1)); [lia|].
    destruct (Z.eqb_spec q (c + 4 * k)); [lia|]. apply Hmem, Hq.
Qed.

(** The scalar loop from index [k0] on keeps memory outside the output
    buffer. *)
Lemma scalar_loop_keeps_outside (power : float) (N : u32) (k0 : Z)
    (h0 : addr -> float) (f : frame) :
  word.unsigned N = n -> outside_inv 1 n h0 k0 f ->
  exists f',
    scalar_loop powf (fuel_of N) power N f = Done f'
    /\ forall q, ~ c <= q < c + n -> mem (mach f') q = h0 q.
Proof.
  intros HN Hinv.
  pose proof (u32_range N) as HR. rewrite HN in HR.
  rewrite scalar_loop_as_batch.
  destruct (batch_loop_invariant (outside_inv 1 n h0)
              (fun f => Done (scalar_step powf power f)) N)
    with (r := Z.to_nat (n - k0)) (fuel := fuel_of N) (k := k0) (f := f)
    as (f' & Hrun & Hinv').
  - intros k g Hg. apply Hg.
  - intros k g Hg Hlt. eexists. split; [reflexivity|].
    apply outside_inv_scalar_step; try assumption; lia.
  - exact Hinv.
  - destruct Hinv as (Hk & _). lia.
  - destruct Hinv as (Hk & _). unfold fuel_of. lia.
  - exists f'. split; [exact Hrun|]. apply Hinv'.
Qed.

(** The part under [LV_HAVE_LIB_SIMDMATH] keeps memory outside the output
    buffer and hands the scalar loop a frame at index [4 * (n / 4)]. *)
Lemma simd_part_keeps_outside
    (step : __m128 -> __m128 -> __m128 -> __m128 -> frame -> outcome frame)
    (g : float -> float -> float) (b : float -> float)
    (power : float) (N : u32) (m : machine) :
  (forall n1 f, aligned (aPtr f) = true -> aligned (cPtr f) = true ->
     step (_mm_set_ps1 power) _mm_setzero_ps (_mm_set_ps1 n1)
          (_mm_set_ps1 F_ONE) f
     = Done (batch_frame (g n1) b (_mm_set_ps1 power) f)) ->
  aligned a = true -> aligned c = true -> word.unsigned N = n ->
  exists f',
    simd_part powf step power N (mk_frame (u32_lit 0) c a m) = Done f'
    /\ outside_inv 1 n (mem m) (4 * (n / 4)) f'.
Proof.
  intros Hstep Hal_a Hal_c HN.
  pose proof (u32_range N) as HR. rewrite HN in HR.
  assert (Hdiv : 0 <= 4 * (n / 4) <= n /\ 0 <= n / 4)
    by (Z.div_mod_to_equations; lia).
  unfold simd_part, call_powf. cbn [number cPtr aPtr mach].
  destruct (batch_loop_invariant (outside_inv 4 (n / 4) (mem m))
              (step (_mm_set_ps1 power) _mm_setzero_ps
                 (_mm_set_ps1 (powf F_NEG_ONE power)) (_mm_set_ps1 F_ONE))
              (word.divu N (u32_lit 4)))
    with (r := Z.to_nat (n / 4)) (fuel := fuel_of N) (k := 0)
         (f := mk_frame (u32_lit 0) c a (record (Call_powf F_NEG_ONE power) m))
    as (f1 & Hrun & Hinv).
  - intros k f Hf. apply Hf.
  - intros k f Hf Hlt. rewrite unsigned_quarter, HN in Hlt.
    eexists. split.
    + apply Hstep.
      * destruct Hf as (_ & _ & _ & Hf & _). rewrite Hf.
        apply aligned_shift, Hal_a.
      * destruct Hf as (_ & _ & Hf & _). rewrite Hf.
        apply aligned_shift, Hal_c.
    + apply outside_inv_batch_step; try assumption; lia.
  - unfold outside_inv. cbn [number cPtr aPtr mach mem record].
    repeat split; try reflexivity; try lia.
  - rewrite unsigned_quarter, HN. lia.
  - unfold fuel_of. rewrite HN. Z.div_mod_to_equations. lia.
  - rewrite Hrun. cbn [bind]. eexists. split; [reflexivity|].
    rewrite unsigned_quarter, HN in Hinv.
    destruct Hinv as (_ & _ & Hc1 & Ha1 & Hmem).
    unfold outside_inv. cbn [number cPtr aPtr mach].
    repeat split; try lia.
    + rewrite (unsigned_quarter_times_4 powf), HN. reflexivity.
    + exact Hmem.
Qed.

End Frame.

Section FrameOfACall.

Variable powf : float -> float -> float.
Variable powf4_lane : float -> float -> float.

(** X10. No variant changes memory outside the output buffer, whatever the
    buffers hold and however they overlap: after a call every address
    outside [cVector .. cVector + num_points) holds what it held before. *)
Theorem memory_outside_the_output_is_kept (simdmath : bool) (v : variant)
    (cVector aVector : addr) (power : float) (num_points : u32) (m : machine) :
  precondition simdmath v cVector aVector ->
  exists m',
    run powf powf4_lane simdmath v cVector aVector power num_points m = Done m'
    /\ forall q, ~ cVector <= q < cVector + word.unsigned num_points ->
         mem m' q = mem m q.
Proof.
  intros Hpre.
  pose proof (u32_range num_points) as HR.
  set (n := word.unsigned num_points) in *.
  assert (Hstart : outside_inv cVector aVector n 1 n (mem m) 0
                     (mk_frame (u32_lit 0) cVector aVector m)).
  { unfold outside_inv. cbn [number cPtr aPtr mach].
    repeat split; try reflexivity; try lia. }
  destruct (is_simd simdmath v) eqn:Hs.
  - destruct (Hpre Hs) as (Hal_a & Hal_c).
    destruct (is_simd_true _ _ Hs) as (-> & Hv).
    assert (Hpart : exists f',
               (if true
                then simd_part powf
                       (match v with
                        | A_SSE => sse_step powf4_lane
                        | _ => sse4_1_step powf4_lane
                        end) power num_points
                       (mk_frame (u32_lit 0) cVector aVector m)
                else Done (mk_frame (u32_lit 0) cVector aVector m)) = Done f'
               /\ outside_inv cVector aVector n 1 n (mem m) (4 * (n / 4)) f').
    { destruct v; [| |congruence].
      - apply (simd_part_keeps_outside powf cVector aVector n
                 (sse4_1_step powf4_lane)
                 (fun n1 => sse4_1_lane powf4_lane n1 power) sse4_1_base);
          try assumption; try reflexivity.
        intros n1 f. apply sse4_1_step_aligned.
      - apply (simd_part_keeps_outside powf cVector aVector n
                 (sse_step powf4_lane)
                 (fun n1 => sse_lane powf4_lane n1 power) sse_base);
          try assumption; try reflexivity.
        intros n1 f. apply sse_step_aligned. }
    destruct Hpart as (f1 & Hrun1 & Hinv1).
    destruct (scalar_loop_keeps_outside powf cVector aVector n power
                num_points (4 * (n / 4)) (mem m) f1 eq_refl Hinv1)
      as (f2 & Hrun2 & Hmem).
    exists (mach f2). split; [|exact Hmem].
    destruct v; [| |congruence]; cbn [run];
      unfold volk_32f_s32f_power_32f_a_sse4_1, volk_32f_s32f_power_32f_a_sse;
      cbn iota in Hrun1; rewrite Hrun1; cbn [bind]; rewrite Hrun2;
      reflexivity.
  - destruct (scalar_loop_keeps_outside powf cVector aVector n power
                num_points 0 (mem m)
                (mk_frame (u32_lit 0) cVector aVector m) eq_refl Hstart)
      as (f2 & Hrun2 & Hmem).
    exists (mach f2). split; [|exact Hmem].
    destruct simdmath, v; try discriminate; cbn [run];
      unfold volk_32f_s32f_power_32f_a_sse4_1, volk_32f_s32f_power_32f_a_sse,
        volk_32f_s32f_power_32f_generic;
      cbn [bind]; rewrite Hrun2; reflexivity.
Qed.

End FrameOfACall.

(** ** The further properties at concrete inputs *)


Lemma misaligned_batch_faults_witness :
  A_SSE4_1 <> GENERIC /\ 4 <= word.unsigned (u32_lit 10)
  /\ (aligned 0 = false \/ aligned 17 = false)
  /\ run powf_example powf4_lane_example true A_SSE4_1 17 0 F_TWO (u32_lit 10)
       (machine_of 0 zero_to_nine F_ZERO) = Fault.
Proof.
  assert (Hn : 4 <= word.unsigned (u32_lit 10))
    by (change (word.unsigned (u32_lit 10)) with 10; lia).
  split; [discriminate|]. split; [exact Hn|].
  split; [right; reflexivity|].
  apply (misaligned_batch_faults powf_example powf4_lane_example A_SSE4_1 17 0
           F_TWO (u32_lit 10) (machine_of 0 zero_to_nine F_ZERO));
    [discriminate | exact Hn | right; reflexivity].
Defined.

Lemma lane_not_below_zero_is_powf4_result_witness :
  A_SSE <> GENERIC /\ aligned 0 = true /\ aligned 16 = true
  /\ forward_safe 16 0 (word.unsigned (u32_lit 10))
  /\ exists m',
       run powf_example powf4_lane_example true A_SSE 16 0 F_TWO (u32_lit 10)
         (machine_of 0 zero_to_nine F_ZERO) = Done m'
       /\ mem m' (16 + 3)
          = powf4_lane_example
              (mem (machine_of 0 zero_to_nine F_ZERO) (0 + 3)) F_TWO.
Proof.
  split; [discriminate|]. split; [reflexivity|]. split; [reflexivity|].
  split; [exact forward_safe_16_0_10|].
  destruct (lane_not_below_zero_is_powf4_result powf_example
              powf4_lane_example A_SSE 16 0 F_TWO (u32_lit 10)
              (machine_of 0 zero_to_nine F_ZERO))
    as (m' & Hrun & Hlane);
    [discriminate | reflexivity | reflexivity | exact forward_safe_16_0_10 |].
  exists m'. split; [exact Hrun|].
  apply Hlane; [|reflexivity|reflexivity].
  change (word.unsigned (u32_lit 10)) with 10. cbn. lia.
Defined.

Lemma lane_below_zero_takes_the_sign_of_minus_one_to_the_power_witness :
  A_SSE4_1 <> GENERIC /\ aligned 0 = true /\ aligned 8 = true
  /\ forward_safe 8 0 (word.unsigned (u32_lit 5))
  /\ powf_example F_NEG_ONE F_THREE = F_NEG_ONE
  /\ exists m',
       run powf_example powf4_lane_example true A_SSE4_1 8 0 F_THREE
         (u32_lit 5) (machine_of 0 minus_two_to_two F_ZERO) = Done m'
       /\ mem m' (8 + 0)
          = f_neg (powf4_lane_example
                     (f_abs (mem (machine_of 0 minus_two_to_two F_ZERO)
                               (0 + 0))) F_THREE).
Proof.
  assert (Hsafe : forward_safe 8 0 (word.unsigned (u32_lit 5))).
  { intros i j Hj Hi. change (word.unsigned (u32_lit 5)) with 5 in Hi. lia. }
  assert (Hodd : powf_example F_NEG_ONE F_THREE = F_NEG_ONE)
    by (vm_compute; reflexivity).
  split; [discriminate|]. split; [reflexivity|]. split; [reflexivity|].
  split; [exact Hsafe|]. split; [exact Hodd|].
  destruct (lane_below_zero_takes_the_sign_of_minus_one_to_the_power
              powf_example powf4_lane_example A_SSE4_1 8 0 F_THREE (u32_lit 5)
              (machine_of 0 minus_two_to_two F_ZERO))
    as (m' & Hrun & Hlane);
    [discriminate | reflexivity | reflexivity | exact Hsafe |].
  exists m'. split; [exact Hrun|].
  destruct (Hlane 0) as (_ & Hneg); [|reflexivity|reflexivity|].
  - change (word.unsigned (u32_lit 5)) with 5. cbn. lia.
  - exact (Hneg Hodd).
Defined.

Lemma call_in_two_pieces_witness :
  word.unsigned (u32_lit 10) = word.unsigned (u32_lit 4) + word.unsigned (u32_lit 6)
  /\ (is_simd true A_SSE = true -> word.unsigned (u32_lit 4) mod 4 = 0)
  /\ precondition true A_SSE 16 0
  /\ forward_safe 16 0 (word.unsigned (u32_lit 10))
  /\ exists m1 m2 mw,
       run powf_example powf4_lane_example true A_SSE 16 0 F_TWO (u32_lit 4)
         (machine_of 0 zero_to_nine F_ZERO) = Done m1
       /\ run powf_example powf4_lane_example true A_SSE
            (16 + word.unsigned (u32_lit 4)) (0 + word.unsigned (u32_lit 4))
            F_TWO (u32_lit 6) m1 = Done m2
       /\ run powf_example powf4_lane_example true A_SSE 16 0 F_TWO
            (u32_lit 10) (machine_of 0 zero_to_nine F_ZERO) = Done mw
       /\ forall q, mem m2 q = mem mw q.
Proof.
  assert (Hpre : precondition true A_SSE 16 0)
    by (intros _; split; reflexivity).
  split; [reflexivity|]. split; [intros _; reflexivity|].
  split; [exact Hpre|]. split; [exact forward_safe_16_0_10|].
  apply (call_in_two_pieces powf_example powf4_lane_example true A_SSE 16 0
           F_TWO (u32_lit 10) (u32_lit 4) (u32_lit 6)
           (machine_of 0 zero_to_nine F_ZERO));
    [reflexivity | intros _; reflexivity | exact Hpre
     | exact forward_safe_16_0_10].
Defined.

Lemma in_place_call_matches_separate_output_witness :
  precondition true A_SSE4_1 16 0
  /\ (16 + word.unsigned (u32_lit 10) <= 0
      \/ 0 + word.unsigned (u32_lit 10) <= 16)
  /\ exists mi mo,
       run powf_example powf4_lane_example true A_SSE4_1 0 0 F_TWO
         (u32_lit 10) (machine_of 0 zero_to_nine F_ZERO) = Done mi
       /\ run powf_example powf4_lane_example true A_SSE4_1 16 0 F_TWO
            (u32_lit 10) (machine_of 0 zero_to_nine F_ZERO) = Done mo
       /\ forall i, 0 <= i < word.unsigned (u32_lit 10) ->
            mem mi (0 + i) = mem mo (16 + i).
Proof.
  assert (Hpre : precondition true A_SSE4_1 16 0)
    by (intros _; split; reflexivity).
  assert (Hdis : 16 + word.unsigned (u32_lit 10) <= 0
                 \/ 0 + word.unsigned (u32_lit 10) <= 16)
    by (right; change (word.unsigned (u32_lit 10)) with 10; lia).
  split; [exact Hpre|]. split; [exact Hdis|].
  exact (in_place_call_matches_separate_output powf_example
           powf4_lane_example true A_SSE4_1 16 0 F_TWO (u32_lit 10)
           (machine_of 0 zero_to_nine F_ZERO) Hpre Hdis).
Defined.

Lemma each_element_loaded_once_and_stored_once_witness :
  precondition true A_SSE 16 0
  /\ exists m' acc,
       run powf_example powf4_lane_example true A_SSE 16 0 F_TWO (u32_lit 10)
         (machine_of 0 zero_to_nine F_ZERO) = Done m'
       /\ accesses (trace m') = [] ++ acc
       /\ length acc = Z.to_nat (2 * word.unsigned (u32_lit 10)).
Proof.
  assert (Hpre : precondition true A_SSE 16 0)
    by (intros _; split; reflexivity).
  split; [exact Hpre|].
  destruct (each_element_loaded_once_and_stored_once powf_example
              powf4_lane_example true A_SSE 16 0 F_TWO (u32_lit 10)
              (machine_of 0 zero_to_nine F_ZERO) Hpre)
    as (m' & acc & Hrun & Hacc & Hlen & _).
  exists m', acc. split; [exact Hrun|]. split; [exact Hacc | exact Hlen].
Defined.

Lemma agrees_with_generic_where_powf4_agrees_with_powf_witness :
  A_SSE <> GENERIC /\ aligned 0 = true /\ aligned 16 = true
  /\ forward_safe 16 0 (word.unsigned (u32_lit 10))
  /\ exists m' g',
       run powf_example powf4_lane_example true A_SSE 16 0 F_TWO (u32_lit 10)
         (machine_of 0 zero_to_nine F_ZERO) = Done m'
       /\ volk_32f_s32f_power_32f_generic powf_example 16 0 F_TWO (u32_lit 10)
            (machine_of 0 zero_to_nine F_ZERO) = Done g'
       /\ forall i, 0 <= i < word.unsigned (u32_lit 10) ->
            mem m' (16 + i) = mem g' (16 + i).
Proof.
  split; [discriminate|]. split; [reflexivity|]. split; [reflexivity|].
  split; [exact forward_safe_16_0_10|].
  apply (agrees_with_generic_where_powf4_agrees_with_powf powf_example
           powf4_lane_example A_SSE 16 0 F_TWO (u32_lit 10)
           (machine_of 0 zero_to_nine F_ZERO));
    [discriminate | reflexivity | reflexivity | exact forward_safe_16_0_10 |].
  intros i Hi. change (word.unsigned (u32_lit 10)) with 10 in Hi.
  change (4 * (10 / 4)) with 8 in Hi.
  assert (Hc : i = 0 \/ i = 1 \/ i = 2 \/ i = 3 \/ i = 4 \/ i = 5 \/ i = 6
               \/ i = 7) by lia.
  repeat (destruct Hc as [->|Hc];
          [repeat split; vm_compute; reflexivity|]).
  subst i. repeat split; vm_compute; reflexivity.
Defined.

Lemma memory_outside_the_output_is_kept_witness :
  precondition true A_SSE 16 0
  /\ exists m',
       run powf_example powf4_lane_example true A_SSE 16 0 F_TWO (u32_lit 10)
         (machine_of 0 zero_to_nine F_ZERO) = Done m'
       /\ forall q, ~ 16 <= q < 16 + word.unsigned (u32_lit 10) ->
            mem m' q = mem (machine_of 0 zero_to_nine F_ZERO) q.
Proof.
  assert (Hpre : precondition true A_SSE 16 0)
    by (intros _; split; reflexivity).
  split; [exact Hpre|].
  exact (memory_outside_the_output_is_kept powf_example powf4_lane_example
           true A_SSE 16 0 F_TWO (u32_lit 10)
           (machine_of 0 zero_to_nine F_ZERO) Hpre).
Defined.

(** * Lanes that reach [powf4] with their sign bit set *)



